(** * Image Encryptor: XOR mask and seeded byte shuffle (main.py)

    A shallow embedding of the key derivation, the two byte transforms and
    the pipeline of [main.py], together with the properties the design
    document states about them.

    Conventions.  Python integers, the elements of [uint8] pixel arrays and
    the elements of [int64] index arrays are values of [Z]; the password, a
    [str], is the list of its code points; a [bytes] object is a list of
    values in [0..255].  File paths and the mode and action arguments, which
    the code only compares with ASCII literals, are [string]s.  Code that
    can raise returns a [result]. *)

From Stdlib Require Import ZArith List Lia String Ascii Permutation.
From stdpp Require Import base option list strings gmap.

Local Open Scope Z_scope.

(** ** Exceptions *)

Inductive exn : Type :=
  | UnicodeEncodeError
  | IndexError
  | ValueError (msg : string)
  | OSError (msg : string).

Inductive result (A : Type) : Type :=
  | Ok (a : A)
  | Raise (e : exn).

Arguments Ok {A} a.
Arguments Raise {A} e.

#[global] Instance result_ret : MRet result := fun A a => Ok a.
#[global] Instance result_bind : MBind result := fun A B f m =>
  match m with
  | Ok a => f a
  | Raise e => Raise e
  end.
#[global] Instance result_fmap : FMap result := fun A B f m =>
  match m with
  | Ok a => Ok (f a)
  | Raise e => Raise e
  end.

Definition is_Ok {A} (r : result A) : Prop := exists a, r = Ok a.

(** ** Python values *)

(** A [str]: its code points, each in [0..0x10FFFF]. *)
Definition pystr : Type := list Z.

(** The [str] of an ASCII literal. *)
Definition str_of (s : string) : pystr :=
  map (fun c => Z.of_N (N_of_ascii c)) (list_ascii_of_string s).

(** [b[i]] on a sequence, for an index [i >= 0]. *)
Definition getitem (b : list Z) (i : nat) : result Z :=
  match b !! i with
  | Some x => Ok x
  | None => Raise IndexError
  end.

(** [int.from_bytes(b, "big", signed=False)]. *)
Definition int_from_bytes_big (b : list Z) : Z :=
  fold_left (fun acc x => acc * 256 + x) b 0.

(** The big-endian value of eight bytes, weight by weight. *)
Definition be64 (b0 b1 b2 b3 b4 b5 b6 b7 : Z) : Z :=
  b0 * 2 ^ 56 + b1 * 2 ^ 48 + b2 * 2 ^ 40 + b3 * 2 ^ 32
  + b4 * 2 ^ 24 + b5 * 2 ^ 16 + b6 * 2 ^ 8 + b7.

(** ** [str.encode("utf-8")] *)

(** The encoder is the interpreter's; it is written out from the definition
    of UTF-8 (RFC 3629).  Lone surrogates [U+D800..U+DFFF] are the code
    points a [str] can hold that UTF-8 cannot: on them, and on nothing that
    a [str] holds otherwise, the encoder raises. *)

Definition utf8_cont (x : Z) : Z := Z.lor 0x80 (Z.land x 0x3F).

Definition utf8_encode_char (c : Z) : result (list Z) :=
  if c <? 0 then Raise UnicodeEncodeError
  else if c <? 0x80 then Ok [c]
  else if c <? 0x800 then
    Ok [Z.lor 0xC0 (Z.shiftr c 6); utf8_cont c]
  else if c <? 0x10000 then
    if (0xD800 <=? c) && (c <=? 0xDFFF) then Raise UnicodeEncodeError
    else Ok [Z.lor 0xE0 (Z.shiftr c 12); utf8_cont (Z.shiftr c 6); utf8_cont c]
  else if c <? 0x110000 then
    Ok [Z.lor 0xF0 (Z.shiftr c 18); utf8_cont (Z.shiftr c 12);
        utf8_cont (Z.shiftr c 6); utf8_cont c]
  else Raise UnicodeEncodeError.

Fixpoint encode_utf8 (s : pystr) : result (list Z) :=
  match s with
  | [] => Ok []
  | c :: s' =>
      bs ← utf8_encode_char c;
      rest ← encode_utf8 s';
      Ok (bs ++ rest)
  end.

(** A code point UTF-8 can carry (a Unicode scalar value). *)
Definition scalar_value (c : Z) : Prop :=
  0 <= c < 0x110000 /\ ~ (0xD800 <= c <= 0xDFFF).

(** ** [hashlib.sha256] *)

(** The hash is the standard library's; it is written out from FIPS 180-4
    on 32-bit words held in [Z], and run on the test vectors of the
    standard below. *)

Module SHA256.

Definition wrap32 (x : Z) : Z := x mod 2 ^ 32.
Definition add32 (x y : Z) : Z := wrap32 (x + y).
Definition rotr (n x : Z) : Z :=
  Z.lor (Z.shiftr x n) (wrap32 (Z.shiftl x (32 - n))).
Definition not32 (x : Z) : Z := Z.lxor x 0xFFFFFFFF.

Definition Ch (x y z : Z) : Z := Z.lxor (Z.land x y) (Z.land (not32 x) z).
Definition Maj (x y z : Z) : Z :=
  Z.lxor (Z.lxor (Z.land x y) (Z.land x z)) (Z.land y z).
Definition Sigma0 (x : Z) : Z := Z.lxor (Z.lxor (rotr 2 x) (rotr 13 x)) (rotr 22 x).
Definition Sigma1 (x : Z) : Z := Z.lxor (Z.lxor (rotr 6 x) (rotr 11 x)) (rotr 25 x).
Definition sigma0 (x : Z) : Z := Z.lxor (Z.lxor (rotr 7 x) (rotr 18 x)) (Z.shiftr x 3).
Definition sigma1 (x : Z) : Z := Z.lxor (Z.lxor (rotr 17 x) (rotr 19 x)) (Z.shiftr x 10).

(** The table of a standard, read from its hexadecimal text: words of
    lower-case digits separated by blanks. *)
Definition hex_digit (c : ascii) : Z :=
  let n := Z.of_N (N_of_ascii c) in
  if (48 <=? n) && (n <=? 57) then n - 48
  else if (97 <=? n) && (n <=? 102) then n - 87
  else -1.

Fixpoint hex_words (s : string) (word : option Z) : list Z :=
  match s with
  | EmptyString => match word with Some w => [w] | None => [] end
  | String c s' =>
      let d := hex_digit c in
      if d <? 0 then
        match word with
        | Some w => w :: hex_words s' None
        | None => hex_words s' None
        end
      else hex_words s' (Some (default 0 word * 16 + d))
  end.

(** The round constants (FIPS 180-4, section 4.2.2). *)
Definition K : list Z := hex_words
  "428a2f98 71374491 b5c0fbcf e9b5dba5 3956c25b 59f111f1 923f82a4 ab1c5ed5
   d807aa98 12835b01 243185be 550c7dc3 72be5d74 80deb1fe 9bdc06a7 c19bf174
   e49b69c1 efbe4786 0fc19dc6 240ca1cc 2de92c6f 4a7484aa 5cb0a9dc 76f988da
   983e5152 a831c66d b00327c8 bf597fc7 c6e00bf3 d5a79147 06ca6351 14292967
   27b70a85 2e1b2138 4d2c6dfc 53380d13 650a7354 766a0abb 81c2c92e 92722c85
   a2bfe8a1 a81a664b c24b8b70 c76c51a3 d192e819 d6990624 f40e3585 106aa070
   19a4c116 1e376c08 2748774c 34b0bcb5 391c0cb3 4ed8aa4a 5b9cca4f 682e6ff3
   748f82ee 78a5636f 84c87814 8cc70208 90befffa a4506ceb bef9a3f7 c67178f2"
  None.

(** The eight working variables, also the chaining value. *)
Record state : Type := State {
  sa : Z; sb : Z; sc : Z; sd : Z; se : Z; sf : Z; sg : Z; sh : Z
}.

Definition H0 : state :=
  State 0x6a09e667 0xbb67ae85 0x3c6ef372 0xa54ff53a
        0x510e527f 0x9b05688c 0x1f83d9ab 0x5be0cd19.

(** Big-endian bytes of a word of [n] bytes. *)
Fixpoint be_bytes (n : nat) (x : Z) : list Z :=
  match n with
  | O => []
  | S n' => (Z.shiftr x (8 * Z.of_nat n')) mod 256 :: be_bytes n' x
  end.

(** Padding: a one bit, zeros up to 56 mod 64, the bit length on 64 bits. *)
Definition pad (msg : list Z) : list Z :=
  let len := Z.of_nat (length msg) in
  msg ++ [0x80] ++ repeat 0 (Z.to_nat ((55 - len) mod 64))
      ++ be_bytes 8 ((8 * len) mod 2 ^ 64).

Fixpoint chunks (k : nat) (count : nat) (l : list Z) : list (list Z) :=
  match count with
  | O => []
  | S count' => take k l :: chunks k count' (drop k l)
  end.

Definition words_of_block (block : list Z) : list Z :=
  map int_from_bytes_big (chunks 4 16 block).

(** The message schedule: [w] holds W_0..W_{t-1}; [n] words are appended. *)
Fixpoint schedule (n : nat) (w : list Z) : list Z :=
  match n with
  | O => w
  | S n' =>
      let t := length w in
      let at_ k := nth (t - k) w 0 in
      let wt := add32 (add32 (add32 (sigma1 (at_ 2%nat)) (at_ 7%nat))
                              (sigma0 (at_ 15%nat))) (at_ 16%nat) in
      schedule n' (w ++ [wt])
  end.

Definition round (s : state) (kw : Z * Z) : state :=
  let '(k, w) := kw in
  let t1 := add32 (add32 (add32 (add32 (sh s) (Sigma1 (se s)))
                                (Ch (se s) (sf s) (sg s))) k) w in
  let t2 := add32 (Sigma0 (sa s)) (Maj (sa s) (sb s) (sc s)) in
  State (add32 t1 t2) (sa s) (sb s) (sc s) (add32 (sd s) t1) (se s) (sf s) (sg s).

Definition compress (h : state) (block : list Z) : state :=
  let w := schedule 48 (words_of_block block) in
  let s := fold_left round (combine K w) h in
  State (add32 (sa h) (sa s)) (add32 (sb h) (sb s))
        (add32 (sc h) (sc s)) (add32 (sd h) (sd s))
        (add32 (se h) (se s)) (add32 (sf h) (sf s))
        (add32 (sg h) (sg s)) (add32 (sh h) (sh s)).

Definition hash_state (msg : list Z) : state :=
  let padded := pad msg in
  fold_left compress (chunks 64 (length padded / 64) padded) H0.

Definition digest_of (s : state) : list Z :=
  be_bytes 4 (sa s) ++ be_bytes 4 (sb s) ++ be_bytes 4 (sc s) ++ be_bytes 4 (sd s)
  ++ be_bytes 4 (se s) ++ be_bytes 4 (sf s) ++ be_bytes 4 (sg s) ++ be_bytes 4 (sh s).

(** [hashlib.sha256(msg).digest()]. *)
Definition digest (msg : list Z) : list Z := digest_of (hash_state msg).

End SHA256.

(** ** Key material helpers *)

(** [derive_key_byte]: the first byte of the digest of the encoded password. *)
Definition derive_key_byte (password : pystr) : result Z :=
  bs ← encode_utf8 password;
  let h := SHA256.digest bs in
  getitem h 0.

(** [derive_seed]: the first eight bytes of the digest, big-endian. *)
Definition derive_seed (password : pystr) : result Z :=
  bs ← encode_utf8 password;
  let h := SHA256.digest bs in
  Ok (int_from_bytes_big (take 8 h)).

(** ** NumPy arrays *)

(** An [ndarray]: its shape and its elements in row-major order, which is
    what [arr.reshape(-1)] views. *)
Record ndarray : Type := NDArray {
  shape : list nat;
  data : list Z
}.

Definition shape_size (sh : list nat) : nat := foldr Nat.mul 1%nat sh.

(** The arrays NumPy can build: as many elements as the shape says. *)
Definition well_shaped (a : ndarray) : Prop :=
  length (data a) = shape_size (shape a).

(** [a.reshape(sh)] of a flat array. *)
Definition reshape (d : list Z) (sh : list nat) : result ndarray :=
  if decide (length d = shape_size sh) then Ok (NDArray sh d)
  else Raise (ValueError "cannot reshape array").

(** [np.arange(n)]: empty for [n <= 0]. *)
Definition np_arange (n : Z) : list Z := seqZ 0 n.

(** [np.uint8(k)] for [k] in [0..255]; the wrap-around is NumPy's for other
    values where it converts them at all. *)
Definition np_uint8 (k : Z) : Z := k mod 2 ^ 8.

Definition is_uint8 (x : Z) : Prop := 0 <= x < 256.

(** The seeds of the pipeline: unsigned integers of 64 bits. *)
Definition is_uint64 (x : Z) : Prop := 0 <= x < 2 ^ 64.

(** Index normalisation of NumPy: [-n..-1] count from the end. *)
Definition np_index (n : nat) (i : Z) : result nat :=
  if (0 <=? i) && (i <? Z.of_nat n) then Ok (Z.to_nat i)
  else if (- Z.of_nat n <=? i) && (i <? 0) then Ok (Z.to_nat (Z.of_nat n + i))
  else Raise IndexError.

(** [flat[idx]] for an integer index array. *)
Fixpoint take_fancy (flat : list Z) (idx : list Z) : result (list Z) :=
  match idx with
  | [] => Ok []
  | i :: idx' =>
      k ← np_index (length flat) i;
      x ← getitem flat k;
      rest ← take_fancy flat idx';
      Ok (x :: rest)
  end.

(** [a[idx] = vals] for an integer index array and as many values, assigned
    in order (a repeated index keeps the last value). *)
Fixpoint setitem_fancy (a : list Z) (idx vals : list Z) : result (list Z) :=
  match idx, vals with
  | [], [] => Ok a
  | i :: idx', v :: vals' =>
      k ← np_index (length a) i;
      setitem_fancy (<[k:=v]> a) idx' vals'
  | _, _ => Raise (ValueError "shape mismatch")
  end.

(** ** The NumPy runtime *)

(** Modelled from the spec: [numpy.random] is a library outside the
    repository.  Section 4.3 of the design fixes what the pipeline needs of
    it: a bit generator seeded from an integer, and a Fisher-Yates shuffle
    that consumes the generator's stream in a fixed order.  The generator is
    kept abstract behind the interface section 9 asks for: [default_rng]
    seeds a state from a non-negative integer (NumPy refuses the others) and
    [random_interval g max] draws an integer of [0..max] and advances the
    state.  [uninitialized] is what [np.empty] finds in memory. *)
Class Runtime : Type := {
  bitgen : Type;
  default_rng : Z -> bitgen;
  random_interval : bitgen -> Z -> Z * bitgen;
  uninitialized : nat -> Z
}.

(** The contract of the bounded draw. *)
Class BoundedDraws (R : Runtime) : Prop :=
  random_interval_range :
    forall (g : bitgen) (max : Z), 0 <= max -> 0 <= (random_interval g max).1 <= max.

(** A small linear congruential generator, to run the definitions on
    concrete inputs.  It is not NumPy's PCG64. *)
Definition lcg_runtime : Runtime := {|
  bitgen := Z;
  default_rng := fun seed => seed;
  random_interval := fun g max =>
    ((g / 2 ^ 33) mod (max + 1),
     (g * 6364136223846793005 + 1442695040888963407) mod 2 ^ 64);
  uninitialized := fun i => -7 - Z.of_nat i
|}.

Section Core.

Context {R : Runtime}.

(** [np.empty_like(a)]. *)
Definition np_empty_like (a : list Z) : list Z :=
  map uninitialized (seq 0 (length a)).

(** Exchange of the elements at [i] and [j]; outside the array nothing is
    exchanged (the shuffle never asks for that). *)
Definition swap (a : list Z) (j i : nat) : list Z :=
  match a !! j, a !! i with
  | Some xj, Some xi => <[i:=xj]> (<[j:=xi]> a)
  | _, _ => a
  end.

(** Modelled from the spec: the Fisher-Yates loop of section 4.3, as
    [Generator.shuffle] runs it on a flat array: for [i] from the last index
    down to [1], draw [j] in [0..i] and exchange elements [i] and [j]. *)
Fixpoint shuffle_raw (i : nat) (a : list Z) (g : bitgen) : list Z * bitgen :=
  match i with
  | O => (a, g)
  | S i' =>
      let '(j, g') := random_interval g (Z.of_nat i) in
      shuffle_raw i' (swap a (Z.to_nat j) i) g'
  end.

(** Modelled from the spec: [rng.permutation(n)] for an integer [n], the
    shuffle of [np.arange(n)]. *)
Definition Generator_permutation (n : Z) (g : bitgen) : list Z * bitgen :=
  let arr := np_arange n in
  shuffle_raw (length arr - 1) arr g.

(** ** Core transforms *)

(** [xor_transform]: [arr ^ np.uint8(key_byte)]. *)
Definition xor_transform (arr : ndarray) (key_byte : Z) : ndarray :=
  NDArray (shape arr) (map (fun x => Z.lxor x (np_uint8 key_byte)) (data arr)).

(** [permutation_for_length]: a fresh generator from the seed, one
    permutation drawn from it; the generator is dropped. *)
Definition permutation_for_length (n : Z) (seed : Z) : list Z :=
  let rng := default_rng seed in
  (Generator_permutation n rng).1.

(** Lines 62-63 of [apply_shuffle]: [inv[perm] = arange(perm.size)] on an
    uninitialised array. *)
Definition invert (perm : list Z) : result (list Z) :=
  let inv := np_empty_like perm in
  setitem_fancy inv perm (np_arange (Z.of_nat (length perm))).

(** [apply_shuffle]. *)
Definition apply_shuffle (arr : ndarray) (seed : Z) (encrypt : bool)
  : result ndarray :=
  let flat := data arr in
  let perm := permutation_for_length (Z.of_nat (length flat)) seed in
  if encrypt then
    shuffled ← take_fancy flat perm;
    reshape shuffled (shape arr)
  else
    inv ← invert perm;
    unshuffled ← take_fancy flat inv;
    reshape unshuffled (shape arr).

(** ** Pipeline *)

Definition str_in (s : string) (l : list string) : bool :=
  bool_decide (s ∈ l).

(** Lines 102-122 of [process]: everything between loading the image and
    saving the result. *)
Definition pipeline (arr : ndarray) (password : pystr) (mode action : string)
  : result ndarray :=
  key_byte ← derive_key_byte password;
  seed ← derive_seed password;
  if negb (str_in mode ["xor"; "shuffle"; "both"]) then
    Raise (ValueError "mode must be one of: xor, shuffle, both")
  else if negb (str_in action ["encrypt"; "decrypt"]) then
    Raise (ValueError "action must be 'encrypt' or 'decrypt'")
  else if String.eqb action "encrypt" then
    arr ← (if str_in mode ["xor"; "both"]
           then Ok (xor_transform arr key_byte) else Ok arr);
    arr ← (if str_in mode ["shuffle"; "both"]
           then apply_shuffle arr seed true else Ok arr);
    Ok arr
  else
    arr ← (if str_in mode ["shuffle"; "both"]
           then apply_shuffle arr seed false else Ok arr);
    arr ← (if str_in mode ["xor"; "both"]
           then Ok (xor_transform arr key_byte) else Ok arr);
    Ok arr.

End Core.

(** ** Image files

    The codecs behind [load_image_as_array] and [save_array_as_image] are
    Pillow's; the pipeline sees them as a reader that leaves the file system
    as it is and a writer that may change it, even when it fails. *)
Class ImageIO : Type := {
  filesystem : Type;
  load_image_as_array : string -> filesystem -> result (ndarray * string);
  save_array_as_image :
    ndarray -> string -> string -> filesystem -> result unit * filesystem
}.

Section Process.

Context {R : Runtime} {IO : ImageIO}.

(** [process]: load, transform, save.  An exception leaves at once. *)
Definition process (in_path out_path : string) (password : pystr)
    (mode action : string) (fs : filesystem) : result unit * filesystem :=
  match load_image_as_array in_path fs with
  | Raise e => (Raise e, fs)
  | Ok (arr, img_mode) =>
      match pipeline arr password mode action with
      | Raise e => (Raise e, fs)
      | Ok arr' => save_array_as_image arr' img_mode out_path fs
      end
  end.

End Process.

(** An array with [f] applied to each of its elements. *)
Definition map_data (f : Z -> Z) (arr : ndarray) : ndarray :=
  NDArray (shape arr) (map f (data arr)).

(** The element an index names, where the index is inside the array. *)
Definition item (flat : list Z) (k : Z) : Z := default 0 (flat !! Z.to_nat k).

(** The modes and the transforms each one selects. *)
Definition uses_xor (mode : string) : bool := str_in mode ["xor"; "both"].
Definition uses_shuffle (mode : string) : bool := str_in mode ["shuffle"; "both"].

(** The two error messages of [process]. *)
Definition mode_message : string := "mode must be one of: xor, shuffle, both".
Definition action_message : string := "action must be 'encrypt' or 'decrypt'".

(** ** Example inputs *)

(** An image store in memory, to run [process]: a path names an array and
    its mode; reading a path that names nothing raises, writing always
    succeeds. *)
Definition mem_io : ImageIO := {|
  filesystem := gmap string (ndarray * string);
  load_image_as_array := fun path fs =>
    match fs !! path with
    | Some img => Ok img
    | None => Raise (OSError "No such file or directory")
    end;
  save_array_as_image := fun arr mode path fs => (Ok tt, <[path:=(arr, mode)]> fs)
|}.

(** The scenario of section 8: a 2x2 buffer and the password "abc". *)
Definition demo : ndarray := NDArray [2%nat; 2%nat] [10; 20; 30; 40].

Definition abc : pystr := str_of "abc".

(** A one-file store holding [demo] as a greyscale image. *)
Definition demo_fs : gmap string (ndarray * string) := {["in.png" := (demo, "L"%string)]}.

(** ** Image files through Pillow

    The two I/O helpers of [main.py], over what they use of Pillow, of
    [os.path] and of the file system. *)

Module Files.

Definition ALLOWED_MODES : list string := ["L"; "RGB"; "RGBA"].

(** Pillow and the disk: [Image.open], [img.mode], [img.convert(mode)],
    [np.array(img, dtype=np.uint8)], [Image.fromarray(arr, mode=mode)] and
    [img.save(path)].  Each call that can raise returns a [result]; only
    [save] writes. *)
Class Pillow : Type := {
  disk : Type;
  image : Type;
  Image_open : string -> disk -> result image;
  image_mode : image -> string;
  image_convert : image -> string -> result image;
  np_array_uint8 : image -> result ndarray;
  Image_fromarray : ndarray -> string -> result image;
  image_save : image -> string -> disk -> result unit * disk
}.

(** What Pillow promises of [convert]: the image it returns has the mode
    that was asked for. *)
Class ConvertGivesMode (P : Pillow) : Prop :=
  convert_mode :
    forall (img img' : image) (mode : string),
      image_convert img mode = Ok img' -> image_mode img' = mode.

(** [p.rfind(c)] for a character [c]: the highest index of [c], or [-1]. *)
Fixpoint rfind (c : ascii) (p : list ascii) : Z :=
  match p with
  | [] => -1
  | x :: p' =>
      let r := rfind c p' in
      if 0 <=? r then r + 1 else if Ascii.eqb x c then 0 else -1
  end.

(** The loop of [genericpath._splitext] that skips leading dots, for [count]
    positions from [filenameIndex] on: true when it meets something other
    than a dot, where [_splitext] returns the split. *)
Fixpoint meets_name (count filenameIndex : nat) (p : list ascii) : bool :=
  match count with
  | O => false
  | S count' =>
      if decide (take 1 (drop filenameIndex p) = ["."%char])
      then meets_name count' (S filenameIndex) p
      else true
  end.

(** [os.path.splitext] of POSIX, on the characters of the path. *)
Definition splitext_chars (p : list ascii) : list ascii * list ascii :=
  let sepIndex := rfind "/" p in
  let dotIndex := rfind "." p in
  if (sepIndex <? dotIndex)
     && meets_name (Z.to_nat (dotIndex - (sepIndex + 1))) (Z.to_nat (sepIndex + 1)) p
  then (take (Z.to_nat dotIndex) p, drop (Z.to_nat dotIndex) p)
  else (p, []).

Definition splitext (p : string) : string * string :=
  let '(root, ext) := splitext_chars (list_ascii_of_string p) in
  (string_of_list_ascii root, string_of_list_ascii ext).

(** [os.path.basename] of POSIX: what follows the last slash. *)
Definition basename_chars (p : list ascii) : list ascii :=
  drop (Z.to_nat (rfind "/" p + 1)) p.

(** Lines 86-88 of [save_array_as_image]: the path the image is saved
    under. *)
Definition output_path (out_path : string) : string :=
  let '(root, ext) := splitext out_path in
  if String.eqb ext "" then (root ++ ".png")%string else out_path.

Section WithPillow.

Context {P : Pillow}.

(** [load_image_as_array]. *)
Definition load_image_as_array (path : string) (fs : disk)
  : result (ndarray * string) :=
  img ← Image_open path fs;
  let mode := image_mode img in
  im ← (if negb (bool_decide (mode ∈ ALLOWED_MODES)) then
          img' ← image_convert img "RGBA";
          Ok (img', image_mode img')
        else Ok (img, mode));
  arr ← np_array_uint8 im.1;
  Ok (arr, im.2).

(** [save_array_as_image]. *)
Definition save_array_as_image (arr : ndarray) (mode out_path : string) (fs : disk)
  : result unit * disk :=
  let out_path := output_path out_path in
  match Image_fromarray arr mode with
  | Ok img => image_save img out_path fs
  | Raise e => (Raise e, fs)
  end.

(** The two helpers as the image layer of [process]. *)
Definition pillow_io : ImageIO :=
  Build_ImageIO disk load_image_as_array save_array_as_image.

End WithPillow.

(** A Pillow in memory, to run the helpers: an image is an array and its
    mode; [convert] knows one conversion, greyscale to RGBA. *)
Definition mem_pillow : Pillow := {|
  disk := gmap string (ndarray * string);
  image := ndarray * string;
  Image_open := fun path fs =>
    match fs !! path with
    | Some img => Ok img
    | None => Raise (OSError "No such file or directory")
    end;
  image_mode := snd;
  image_convert := fun img mode =>
    match shape img.1 with
    | [h; w] =>
        Ok (NDArray [h; w; 4%nat] (flat_map (fun v => [v; v; v; 255]) (data img.1)), mode)
    | _ => Raise (ValueError "conversion not supported")
    end;
  np_array_uint8 := fun img => Ok img.1;
  Image_fromarray := fun arr mode => Ok (arr, mode);
  image_save := fun img path fs => (Ok tt, <[path:=img]> fs)
|}.

(** A store with [demo] saved in a palette mode Pillow does not hand over
    as it is. *)
Definition palette_fs : gmap string (ndarray * string) :=
  {["in.gif" := (NDArray [2%nat; 2%nat] [10; 20; 30; 40], "P"%string)]}.

End Files.

(** * Properties *)

(** ** The exception monad *)

Ltac result_simpl :=
  cbn [mbind mret fmap result_bind result_ret result_fmap] in *.

(** ** Bytes *)

Lemma be_bytes_uint8 (n : nat) (x : Z) : Forall is_uint8 (SHA256.be_bytes n x).
Proof.
  induction n as [|n IH]; cbn [SHA256.be_bytes]; constructor; [|exact IH].
  unfold is_uint8. apply Z.mod_pos_bound. lia.
Qed.

Lemma be_bytes_length (n : nat) (x : Z) : length (SHA256.be_bytes n x) = n.
Proof. induction n as [|n IH]; cbn [SHA256.be_bytes length]; congruence. Qed.

Lemma digest_length (msg : list Z) : length (SHA256.digest msg) = 32%nat.
Proof.
  unfold SHA256.digest, SHA256.digest_of.
  rewrite !length_app, !be_bytes_length. reflexivity.
Qed.

Lemma digest_uint8 (msg : list Z) : Forall is_uint8 (SHA256.digest msg).
Proof.
  unfold SHA256.digest, SHA256.digest_of.
  rewrite !Forall_app. repeat split; apply be_bytes_uint8.
Qed.

(** The test vectors of the standard, and a message of sixteen blocks. *)
Example sha256_empty :
  int_from_bytes_big (SHA256.digest [])
  = 0xe3b0c44298fc1c149afbf4c8996fb92427ae41e4649b934ca495991b7852b855.
Proof. vm_compute. reflexivity. Qed.

Example sha256_abc :
  int_from_bytes_big (SHA256.digest [97; 98; 99])
  = 0xba7816bf8f01cfea414140de5dae2223b00361a396177a9cb410ff61f20015ad.
Proof. vm_compute. reflexivity. Qed.

Example sha256_two_blocks :
  int_from_bytes_big
    (SHA256.digest (str_of "abcdbcdecdefdefgefghfghighijhijkijkljklmklmnlmnomnopnopq"))
  = 0x248d6a61d20638b8e5c026930c3e6039a33ce45964ff2167f6ecedd419db06c1.
Proof. vm_compute. reflexivity. Qed.

Example sha256_thousand_a :
  int_from_bytes_big (SHA256.digest (repeat 97 1000))
  = 0x41edece42d63e8d9bf515a9ba6932e1c20cbc9f5a5d134645adb5db1b9737ea3.
Proof. vm_compute. reflexivity. Qed.

(** The digest starts with eight bytes. *)
Lemma digest_head (msg : list Z) :
  exists b0 b1 b2 b3 b4 b5 b6 b7 rest,
    SHA256.digest msg = b0 :: b1 :: b2 :: b3 :: b4 :: b5 :: b6 :: b7 :: rest
    /\ Forall is_uint8 [b0; b1; b2; b3; b4; b5; b6; b7].
Proof.
  pose proof (digest_uint8 msg) as Hb.
  pose proof (digest_length msg) as Hl.
  destruct (SHA256.digest msg) as [|b0 [|b1 [|b2 [|b3 [|b4 [|b5 [|b6 [|b7 rest]]]]]]]];
    try discriminate Hl.
  exists b0, b1, b2, b3, b4, b5, b6, b7, rest. split; [reflexivity|].
  repeat (apply Forall_cons in Hb as [? Hb]).
  repeat first [assumption | apply Forall_nil_2 | apply Forall_cons_2].
Qed.

Lemma int_from_bytes_big_8 (b0 b1 b2 b3 b4 b5 b6 b7 : Z) :
  int_from_bytes_big [b0; b1; b2; b3; b4; b5; b6; b7] = be64 b0 b1 b2 b3 b4 b5 b6 b7.
Proof. unfold int_from_bytes_big, be64. cbn [fold_left]. lia. Qed.

Lemma be64_range (b0 b1 b2 b3 b4 b5 b6 b7 : Z) :
  Forall is_uint8 [b0; b1; b2; b3; b4; b5; b6; b7] ->
  0 <= be64 b0 b1 b2 b3 b4 b5 b6 b7 < 2 ^ 64
  /\ be64 b0 b1 b2 b3 b4 b5 b6 b7 / 2 ^ 56 = b0.
Proof.
  intros H. repeat (apply Forall_cons in H as [? H]). unfold is_uint8, be64 in *.
  split; [lia|].
  symmetry. apply (Z.div_unique _ _ _
    (b1 * 2 ^ 48 + b2 * 2 ^ 40 + b3 * 2 ^ 32 + b4 * 2 ^ 24 + b5 * 2 ^ 16 + b6 * 2 ^ 8 + b7)); lia.
Qed.

(** ** UTF-8 *)

Lemma utf8_encode_char_scalar (c : Z) :
  scalar_value c -> is_Ok (utf8_encode_char c).
Proof.
  intros [Hr Hs]. unfold utf8_encode_char, is_Ok.
  repeat (case_match; try (eexists; reflexivity)); lia.
Qed.

Lemma encode_utf8_scalar (s : pystr) :
  Forall scalar_value s -> is_Ok (encode_utf8 s).
Proof.
  induction 1 as [|c s Hc _ [rest IH]]; cbn [encode_utf8].
  - eexists; reflexivity.
  - destruct (utf8_encode_char_scalar c Hc) as [bs ->]. rewrite IH.
    result_simpl. eexists; reflexivity.
Qed.

(** ** Key derivation *)

Lemma derive_encoded (password : pystr) (bs : list Z) :
  encode_utf8 password = Ok bs ->
  exists b0 b1 b2 b3 b4 b5 b6 b7 rest,
    SHA256.digest bs = b0 :: b1 :: b2 :: b3 :: b4 :: b5 :: b6 :: b7 :: rest
    /\ Forall is_uint8 [b0; b1; b2; b3; b4; b5; b6; b7]
    /\ derive_key_byte password = Ok b0
    /\ derive_seed password = Ok (be64 b0 b1 b2 b3 b4 b5 b6 b7).
Proof.
  intros He.
  destruct (digest_head bs) as (b0 & b1 & b2 & b3 & b4 & b5 & b6 & b7 & rest & Hd & Hb).
  exists b0, b1, b2, b3, b4, b5, b6, b7, rest.
  unfold derive_key_byte, derive_seed. rewrite He. result_simpl. rewrite Hd.
  repeat split; try assumption.
  cbn [take]. rewrite int_from_bytes_big_8. reflexivity.
Qed.

Lemma derive_unencodable (password : pystr) (e : exn) :
  encode_utf8 password = Raise e ->
  derive_key_byte password = Raise e /\ derive_seed password = Raise e.
Proof.
  intros He. unfold derive_key_byte, derive_seed. rewrite He. split; reflexivity.
Qed.

(** The password "пароль€": two- and three-byte code points. *)
Example derive_non_ascii :
  let p := [1087; 1072; 1088; 1086; 1083; 1100; 8364] in
  derive_key_byte p = Ok 43 /\ derive_seed p = Ok 3153644123215112128.
Proof. split; vm_compute; reflexivity. Qed.

(** The empty password. *)
Example derive_empty :
  derive_key_byte [] = Ok 227 /\ derive_seed [] = Ok 16406829232824261652.
Proof. split; vm_compute; reflexivity. Qed.

(** A lone surrogate has no encoding: both derivations raise. *)
Example derive_surrogate :
  derive_key_byte [0xD800] = Raise UnicodeEncodeError
  /\ derive_seed [0xD800] = Raise UnicodeEncodeError.
Proof. split; reflexivity. Qed.

(** ** Arrays *)

Lemma np_arange_length (n : Z) : length (np_arange n) = Z.to_nat n.
Proof. apply length_seqZ. Qed.

Lemma np_arange_lookup (n : Z) (i : nat) (v : Z) :
  np_arange n !! i = Some v <-> v = Z.of_nat i /\ Z.of_nat i < n.
Proof. unfold np_arange. rewrite lookup_seqZ. lia. Qed.

Lemma np_arange_elem (n v : Z) : v ∈ np_arange n <-> 0 <= v < n.
Proof. unfold np_arange. rewrite elem_of_seqZ. lia. Qed.

Lemma np_arange_NoDup (n : Z) : NoDup (np_arange n).
Proof. apply NoDup_seqZ. Qed.

Lemma reshape_Ok (d : list Z) (sh : list nat) :
  length d = shape_size sh -> reshape d sh = Ok (NDArray sh d).
Proof. intros H. unfold reshape. rewrite decide_True by exact H. reflexivity. Qed.

Lemma np_index_in_range (n : nat) (i : Z) :
  0 <= i < Z.of_nat n -> np_index n i = Ok (Z.to_nat i).
Proof.
  intros H. unfold np_index.
  destruct (Z.leb_spec 0 i), (Z.ltb_spec i (Z.of_nat n)); try lia. reflexivity.
Qed.

(** Gathering through indices that are all inside the array succeeds, and
    element [i] of the result is the element the [i]-th index names. *)
Lemma take_fancy_in_range (flat idx : list Z) :
  Forall (fun k => 0 <= k < Z.of_nat (length flat)) idx ->
  exists out, take_fancy flat idx = Ok out
    /\ length out = length idx
    /\ forall (i : nat) (k : Z), idx !! i = Some k -> out !! i = flat !! Z.to_nat k.
Proof.
  induction 1 as [|k idx Hk _ (out & Hout & Hlen & Hget)]; cbn [take_fancy].
  - exists []. repeat split. intros i k Hi. discriminate Hi.
  - rewrite (np_index_in_range _ _ Hk). result_simpl.
    destruct (lookup_lt_is_Some_2 flat (Z.to_nat k)) as [x Hx]; [lia|].
    unfold getitem. rewrite Hx, Hout. result_simpl.
    exists (x :: out). repeat split.
    + cbn [length]. congruence.
    + intros [|i] k' Hi; cbn in Hi |- *; [congruence | eauto].
Qed.

(** Scattering through distinct indices inside the array succeeds; the
    slots the indices name receive the values, the others keep theirs. *)
Lemma setitem_fancy_in_range (idx : list Z) :
  forall (a vals : list Z),
    length vals = length idx ->
    Forall (fun k => 0 <= k < Z.of_nat (length a)) idx ->
    NoDup idx ->
    exists a', setitem_fancy a idx vals = Ok a'
      /\ length a' = length a
      /\ (forall (i : nat) (k v : Z),
            idx !! i = Some k -> vals !! i = Some v -> a' !! Z.to_nat k = Some v)
      /\ (forall (j : nat), Z.of_nat j ∉ idx -> a' !! j = a !! j).
Proof.
  induction idx as [|k idx IH]; intros a [|v vals] Hlen Hr Hnd;
    try discriminate Hlen; cbn [setitem_fancy].
  - exists a. repeat split. intros i k v Hi. discriminate Hi.
  - apply Forall_cons in Hr as [Hk Hr]. apply NoDup_cons in Hnd as [Hnk Hnd].
    rewrite (np_index_in_range _ _ Hk). result_simpl.
    destruct (IH (<[Z.to_nat k:=v]> a) vals) as (a' & Ha' & Hl' & Hset & Hkeep).
    + cbn [length] in Hlen. lia.
    + rewrite length_insert. exact Hr.
    + exact Hnd.
    + exists a'. rewrite length_insert in Hl'. repeat split; [exact Ha' | exact Hl' | |].
      * intros [|i] k' v' Hi Hv; cbn in Hi, Hv.
        -- injection Hi as <-. injection Hv as <-.
           rewrite Hkeep; [apply list_lookup_insert_eq; lia|].
           rewrite Z2Nat.id by lia. exact Hnk.
        -- eauto.
      * intros j Hj. rewrite Hkeep.
        -- apply list_lookup_insert_ne. intros Heq. subst j. apply Hj.
           rewrite Z2Nat.id by lia. left.
        -- intros Hin. apply Hj. right. exact Hin.
Qed.

(** ** The permutation generator *)

Section Shuffle.

Context {R : Runtime}.

Lemma swap_Permutation (a : list Z) (j i : nat) : swap a j i ≡ₚ a.
Proof.
  unfold swap.
  destruct (a !! j) as [xj|] eqn:Hj; [|reflexivity].
  destruct (a !! i) as [xi|] eqn:Hi; [|reflexivity].
  exact (Permutation_insert_swap a j i xj xi Hj Hi).
Qed.

Lemma shuffle_raw_Permutation (i : nat) :
  forall (a : list Z) (g : bitgen), (shuffle_raw i a g).1 ≡ₚ a.
Proof.
  induction i as [|i IH]; intros a g; cbn [shuffle_raw].
  - reflexivity.
  - destruct (random_interval g (Z.of_nat (S i))) as [j g'].
    rewrite IH. apply swap_Permutation.
Qed.

(** An exchange the loop asks for lies inside the array as soon as the
    draws respect their bound. *)
Lemma swap_in_range (a : list Z) (j i : nat) :
  (j <= i)%nat -> (i < length a)%nat ->
  exists xj xi, a !! j = Some xj /\ a !! i = Some xi
    /\ swap a j i = <[i:=xj]> (<[j:=xi]> a).
Proof.
  intros Hji Hi.
  destruct (lookup_lt_is_Some_2 a j) as [xj Hxj]; [lia|].
  destruct (lookup_lt_is_Some_2 a i) as [xi Hxi]; [lia|].
  exists xj, xi. unfold swap. rewrite Hxj, Hxi. auto.
Qed.

Lemma draw_in_range `{!BoundedDraws R} (g : bitgen) (i : nat) :
  (Z.to_nat (random_interval g (Z.of_nat i)).1 <= i)%nat.
Proof.
  pose proof (random_interval_range g (Z.of_nat i)) as H. lia.
Qed.

Lemma permutation_for_length_Permutation (n seed : Z) :
  permutation_for_length n seed ≡ₚ np_arange n.
Proof.
  unfold permutation_for_length, Generator_permutation.
  apply shuffle_raw_Permutation.
Qed.

Lemma permutation_for_length_length (n seed : Z) :
  length (permutation_for_length n seed) = Z.to_nat n.
Proof.
  rewrite (Permutation_length (permutation_for_length_Permutation n seed)).
  apply np_arange_length.
Qed.

Lemma permutation_for_length_NoDup (n seed : Z) :
  NoDup (permutation_for_length n seed).
Proof.
  rewrite (permutation_for_length_Permutation n seed). apply np_arange_NoDup.
Qed.

Lemma permutation_for_length_elem (n seed v : Z) :
  v ∈ permutation_for_length n seed <-> 0 <= v < n.
Proof.
  rewrite (permutation_for_length_Permutation n seed). apply np_arange_elem.
Qed.

Lemma permutation_for_length_count (n seed v : Z) :
  0 <= v < n -> count_occ Z.eq_dec (permutation_for_length n seed) v = 1%nat.
Proof.
  intros Hv.
  pose proof (permutation_for_length_NoDup n seed) as Hnd.
  apply NoDup_ListNoDup in Hnd.
  pose proof (proj1 (NoDup_count_occ Z.eq_dec _) Hnd v) as Hle.
  assert (In v (permutation_for_length n seed)) as Hin.
  { apply list_elem_of_In, permutation_for_length_elem, Hv. }
  apply (count_occ_In Z.eq_dec) in Hin. lia.
Qed.

(** Every index of the array is named by some entry of a permutation. *)
Lemma permutation_for_length_onto (n seed : Z) (k : nat) :
  Z.of_nat k < n ->
  exists i, permutation_for_length n seed !! i = Some (Z.of_nat k).
Proof.
  intros Hk. apply list_elem_of_lookup_1, permutation_for_length_elem. lia.
Qed.

Lemma permutation_for_length_range (n seed : Z) :
  Forall (fun k => 0 <= k < n) (permutation_for_length n seed).
Proof.
  apply Forall_forall. intros v Hv. apply permutation_for_length_elem in Hv. exact Hv.
Qed.

End Shuffle.

(** ** Inverting a permutation, shuffling and unshuffling *)

Section ApplyShuffle.

Context {R : Runtime}.

Lemma np_empty_like_length (a : list Z) : length (np_empty_like a) = length a.
Proof. unfold np_empty_like. rewrite length_map, length_seq. reflexivity. Qed.

(** [invert] on a permutation of [0..n-1]: every slot of the uninitialised
    array is written, slot [perm[i]] with [i]. *)
Lemma invert_permutation (perm : list Z) :
  perm ≡ₚ np_arange (Z.of_nat (length perm)) ->
  exists inv, invert perm = Ok inv
    /\ length inv = length perm
    /\ (forall (i : nat) (p : Z),
          perm !! i = Some p -> inv !! Z.to_nat p = Some (Z.of_nat i))
    /\ Forall (fun k => 0 <= k < Z.of_nat (length perm)) inv.
Proof.
  intros Hp. unfold invert.
  assert (forall v, v ∈ perm <-> 0 <= v < Z.of_nat (length perm)) as Helem.
  { intros v. rewrite Hp at 1. apply np_arange_elem. }
  destruct (setitem_fancy_in_range perm (np_empty_like perm)
              (np_arange (Z.of_nat (length perm))))
    as (inv & Hinv & Hlen & Hset & _).
  - rewrite np_arange_length. lia.
  - rewrite np_empty_like_length. apply Forall_forall. intros v Hv. apply Helem, Hv.
  - rewrite Hp. apply np_arange_NoDup.
  - rewrite np_empty_like_length in Hlen.
    assert (forall (i : nat) (p : Z),
              perm !! i = Some p -> inv !! Z.to_nat p = Some (Z.of_nat i)) as Hslot.
    { intros i p Hi. apply (Hset i p (Z.of_nat i) Hi).
      apply np_arange_lookup. split; [reflexivity|].
      apply lookup_lt_Some in Hi. lia. }
    exists inv. repeat split; try assumption.
    apply Forall_lookup. intros j v Hj.
    assert (Z.of_nat j ∈ perm) as Hin.
    { apply Helem. apply lookup_lt_Some in Hj. lia. }
    apply list_elem_of_lookup_1 in Hin as [i Hi].
    pose proof (Hslot i _ Hi) as Hv. rewrite Nat2Z.id, Hj in Hv.
    injection Hv as ->. apply lookup_lt_Some in Hi. lia.
Qed.

Lemma permutation_for_length_self (n : nat) (seed : Z) :
  let perm := permutation_for_length (Z.of_nat n) seed in
  length perm = n /\ perm ≡ₚ np_arange (Z.of_nat (length perm)).
Proof.
  cbn zeta.
  assert (length (permutation_for_length (Z.of_nat n) seed) = n) as Hl.
  { rewrite permutation_for_length_length. lia. }
  split; [exact Hl|]. rewrite Hl. apply permutation_for_length_Permutation.
Qed.

(** The forward shuffle: element [i] of the result is element [perm[i]] of
    the input; the shape is kept. *)
Lemma apply_shuffle_encrypt (arr : ndarray) (seed : Z) :
  well_shaped arr ->
  let perm := permutation_for_length (Z.of_nat (length (data arr))) seed in
  exists out, apply_shuffle arr seed true = Ok out
    /\ shape out = shape arr
    /\ length (data out) = length (data arr)
    /\ forall (i : nat) (p : Z),
         perm !! i = Some p -> data out !! i = data arr !! Z.to_nat p.
Proof.
  intros Hw perm.
  destruct (permutation_for_length_self (length (data arr)) seed) as [Hl _].
  destruct (take_fancy_in_range (data arr) perm) as (out & Hout & Hlen & Hget).
  { apply permutation_for_length_range. }
  fold perm in Hl. rewrite Hl in Hlen.
  exists (NDArray (shape arr) out). unfold apply_shuffle. fold perm.
  rewrite Hout. result_simpl. rewrite reshape_Ok by (rewrite Hlen; exact Hw).
  repeat split; assumption.
Qed.

(** The inverse shuffle: element [i] of the result is element [inv[i]] of
    the input, where [inv[perm[i]] = i]; the shape is kept. *)
Lemma apply_shuffle_decrypt (arr : ndarray) (seed : Z) :
  well_shaped arr ->
  let perm := permutation_for_length (Z.of_nat (length (data arr))) seed in
  exists inv out, invert perm = Ok inv
    /\ apply_shuffle arr seed false = Ok out
    /\ length inv = length (data arr)
    /\ Forall (fun k => 0 <= k < Z.of_nat (length (data arr))) inv
    /\ (forall (i : nat) (p : Z),
          perm !! i = Some p -> inv !! Z.to_nat p = Some (Z.of_nat i))
    /\ shape out = shape arr
    /\ length (data out) = length (data arr)
    /\ forall (i : nat) (q : Z),
         inv !! i = Some q -> data out !! i = data arr !! Z.to_nat q.
Proof.
  intros Hw perm.
  destruct (permutation_for_length_self (length (data arr)) seed) as [Hl Hp].
  fold perm in Hl, Hp.
  destruct (invert_permutation perm Hp) as (inv & Hinv & Hil & Hslot & Hir).
  rewrite Hl in Hil, Hir.
  destruct (take_fancy_in_range (data arr) inv Hir) as (out & Hout & Hlen & Hget).
  rewrite Hil in Hlen.
  exists inv, (NDArray (shape arr) out). unfold apply_shuffle. fold perm.
  rewrite Hinv. result_simpl. rewrite Hout. result_simpl. rewrite reshape_Ok by (rewrite Hlen; exact Hw).
  repeat split; assumption.
Qed.

(** Unshuffling a shuffled array gives the array back. *)
Lemma apply_shuffle_round_trip (arr : ndarray) (seed : Z) :
  well_shaped arr ->
  exists arr1, apply_shuffle arr seed true = Ok arr1
    /\ well_shaped arr1
    /\ apply_shuffle arr1 seed false = Ok arr.
Proof.
  intros Hw.
  destruct (apply_shuffle_encrypt arr seed Hw) as (arr1 & H1 & Hs1 & Hl1 & Hg1).
  assert (well_shaped arr1) as Hw1.
  { unfold well_shaped in *. congruence. }
  exists arr1. repeat split; [exact H1 | exact Hw1 |].
  destruct (apply_shuffle_decrypt arr1 seed Hw1)
    as (inv & out & _ & H2 & Hil & _ & Hslot & Hs2 & Hl2 & Hg2).
  rewrite Hl1 in *.
  rewrite H2. f_equal. destruct out as [sh d], arr as [sh0 d0].
  cbn [shape data] in *. f_equal; [congruence|].
  apply list_eq. intros k.
  destruct (decide (k < length d0)%nat) as [Hk|Hk].
  - destruct (permutation_for_length_onto (Z.of_nat (length d0)) seed k) as [i Hi];
      [lia|].
    pose proof (Hslot i _ Hi) as Hv. rewrite Nat2Z.id in Hv.
    rewrite (Hg2 k _ Hv), Nat2Z.id, (Hg1 i _ Hi), Nat2Z.id. reflexivity.
  - rewrite !lookup_ge_None_2 by lia. reflexivity.
Qed.

End ApplyShuffle.

(** What the uninitialised array held never reaches the inverse: two runs
    with other memory contents invert a permutation to the same array. *)
Lemma invert_memory_independent (R R' : Runtime) (perm : list Z) :
  perm ≡ₚ np_arange (Z.of_nat (length perm)) ->
  @invert R perm = @invert R' perm.
Proof.
  intros Hp.
  destruct (@invert_permutation R perm Hp) as (inv & -> & Hl & Hslot & _).
  destruct (@invert_permutation R' perm Hp) as (inv' & -> & Hl' & Hslot' & _).
  f_equal. apply list_eq. intros k.
  destruct (decide (k < length perm)%nat) as [Hk|Hk].
  - assert (Z.of_nat k ∈ perm) as Hin.
    { rewrite Hp. apply np_arange_elem. lia. }
    apply list_elem_of_lookup_1 in Hin as [i Hi].
    pose proof (Hslot i _ Hi) as H1. pose proof (Hslot' i _ Hi) as H2.
    rewrite Nat2Z.id in H1, H2. congruence.
  - rewrite !lookup_ge_None_2 by lia. reflexivity.
Qed.

(** ** The XOR mask *)

Lemma np_uint8_id (k : Z) : is_uint8 k -> np_uint8 k = k.
Proof. unfold is_uint8, np_uint8. intros H. apply Z.mod_small. lia. Qed.

Lemma lxor_uint8 (x k : Z) : is_uint8 x -> is_uint8 k -> is_uint8 (Z.lxor x k).
Proof.
  unfold is_uint8. intros Hx Hk.
  assert (0 <= Z.lxor x k) as Hnn by (apply Z.lxor_nonneg; lia).
  split; [exact Hnn|].
  destruct (Z.eq_dec (Z.lxor x k) 0) as [->|Hne]; [lia|].
  apply (Z.log2_lt_pow2 _ 8); [lia|].
  pose proof (Z.log2_lxor x k ltac:(lia) ltac:(lia)) as Hlog.
  assert (forall y, 0 <= y < 256 -> Z.log2 y < 8) as Hb.
  { intros y Hy. destruct (Z.eq_dec y 0) as [->|]; [reflexivity|].
    apply Z.log2_lt_pow2; lia. }
  pose proof (Hb x Hx). pose proof (Hb k Hk). lia.
Qed.

Lemma lxor_twice (x m : Z) : Z.lxor (Z.lxor x m) m = x.
Proof. rewrite Z.lxor_assoc, Z.lxor_nilpotent, Z.lxor_0_r. reflexivity. Qed.

Lemma xor_transform_shape (arr : ndarray) (k : Z) :
  shape (xor_transform arr k) = shape arr.
Proof. reflexivity. Qed.

Lemma xor_transform_length (arr : ndarray) (k : Z) :
  length (data (xor_transform arr k)) = length (data arr).
Proof. unfold xor_transform. cbn [data]. apply length_map. Qed.

Lemma xor_transform_well_shaped (arr : ndarray) (k : Z) :
  well_shaped arr -> well_shaped (xor_transform arr k).
Proof.
  unfold well_shaped. rewrite xor_transform_length, xor_transform_shape. auto.
Qed.

Lemma xor_transform_lookup (arr : ndarray) (k : Z) (i : nat) :
  is_uint8 k ->
  data (xor_transform arr k) !! i = (fun x => Z.lxor x k) <$> data arr !! i.
Proof.
  intros Hk. unfold xor_transform. cbn [data].
  rewrite (np_uint8_id k Hk). apply list_lookup_fmap.
Qed.

Lemma xor_transform_uint8 (arr : ndarray) (k : Z) :
  is_uint8 k -> Forall is_uint8 (data arr) ->
  Forall is_uint8 (data (xor_transform arr k)).
Proof.
  intros Hk Hb. unfold xor_transform. cbn [data]. rewrite (np_uint8_id k Hk).
  apply Forall_fmap. eapply Forall_impl; [exact Hb|].
  intros x Hx. cbn. apply lxor_uint8; assumption.
Qed.

Lemma xor_transform_involutive (arr : ndarray) (k : Z) :
  xor_transform (xor_transform arr k) k = arr.
Proof.
  destruct arr as [sh d]. unfold xor_transform. cbn [shape data]. f_equal.
  induction d as [|x d IH]; cbn [map]; [reflexivity|].
  rewrite lxor_twice, IH. reflexivity.
Qed.

(** ** The pipeline *)

Lemma bind_Ok_r {A} (m : result A) : m ≫= (fun a => Ok a) = m.
Proof. destruct m; reflexivity. Qed.

Lemma str_in_true (s : string) (l : list string) : str_in s l = true <-> s ∈ l.
Proof. unfold str_in. apply bool_decide_eq_true. Qed.

Lemma str_in_false (s : string) (l : list string) : str_in s l = false <-> s ∉ l.
Proof. unfold str_in. apply bool_decide_eq_false. Qed.

Section Pipeline.

Context {R : Runtime}.

(** With key material in hand and valid arguments, encryption is XOR then
    shuffle, each when the mode selects it. *)
Lemma pipeline_encrypt (arr : ndarray) (password : pystr) (mode : string) (k s : Z) :
  derive_key_byte password = Ok k ->
  derive_seed password = Ok s ->
  mode ∈ ["xor"; "shuffle"; "both"] ->
  pipeline arr password mode "encrypt" =
    let arr1 := if uses_xor mode then xor_transform arr k else arr in
    if uses_shuffle mode then apply_shuffle arr1 s true else Ok arr1.
Proof.
  intros Hk Hs Hm. unfold pipeline. rewrite Hk, Hs. result_simpl.
  apply str_in_true in Hm. rewrite Hm. cbn [negb].
  change (str_in "encrypt" ["encrypt"; "decrypt"]) with true. cbn [negb].
  change ("encrypt" =? "encrypt")%string with true. cbv iota.
  fold (uses_xor mode) (uses_shuffle mode).
  destruct (uses_xor mode), (uses_shuffle mode); result_simpl;
    rewrite ?bind_Ok_r; reflexivity.
Qed.

(** Decryption is unshuffle then XOR. *)
Lemma pipeline_decrypt (arr : ndarray) (password : pystr) (mode : string) (k s : Z) :
  derive_key_byte password = Ok k ->
  derive_seed password = Ok s ->
  mode ∈ ["xor"; "shuffle"; "both"] ->
  pipeline arr password mode "decrypt" =
    arr1 ← (if uses_shuffle mode then apply_shuffle arr s false else Ok arr);
    Ok (if uses_xor mode then xor_transform arr1 k else arr1).
Proof.
  intros Hk Hs Hm. unfold pipeline. rewrite Hk, Hs. result_simpl.
  apply str_in_true in Hm. rewrite Hm. cbn [negb].
  change (str_in "decrypt" ["encrypt"; "decrypt"]) with true. cbn [negb].
  change ("decrypt" =? "encrypt")%string with false. cbv iota.
  fold (uses_xor mode) (uses_shuffle mode).
  destruct (uses_shuffle mode); [destruct (apply_shuffle arr s false)|];
    result_simpl; destruct (uses_xor mode); reflexivity.
Qed.

(** Invalid arguments: with key material in hand the pipeline raises
    [ValueError], whatever the array; the mode is looked at first. *)
Lemma pipeline_invalid (arr : ndarray) (password : pystr) (mode action : string) (k s : Z) :
  derive_key_byte password = Ok k ->
  derive_seed password = Ok s ->
  mode ∉ ["xor"; "shuffle"; "both"] \/ action ∉ ["encrypt"; "decrypt"] ->
  pipeline arr password mode action =
    Raise (ValueError (if str_in mode ["xor"; "shuffle"; "both"]
                       then action_message else mode_message)).
Proof.
  intros Hk Hs Hbad. unfold pipeline. rewrite Hk, Hs. result_simpl.
  destruct (str_in mode ["xor"; "shuffle"; "both"]) eqn:Hm; cbn [negb].
  - destruct (str_in action ["encrypt"; "decrypt"]) eqn:Ha; cbn [negb].
    + apply str_in_true in Hm, Ha. destruct Hbad as [Hbad|Hbad]; contradiction.
    + reflexivity.
  - reflexivity.
Qed.


(** The round trip for each mode. *)
Lemma pipeline_round_trip (arr : ndarray) (password : pystr) (mode : string) (k s : Z) :
  derive_key_byte password = Ok k ->
  derive_seed password = Ok s ->
  mode ∈ ["xor"; "shuffle"; "both"] ->
  well_shaped arr ->
  exists enc, pipeline arr password mode "encrypt" = Ok enc
    /\ pipeline enc password mode "decrypt" = Ok arr.
Proof.
  intros Hk Hs Hm Hw.
  setoid_rewrite (pipeline_encrypt _ _ _ _ _ Hk Hs Hm).
  setoid_rewrite (pipeline_decrypt _ _ _ _ _ Hk Hs Hm).
  cbn zeta. destruct (uses_shuffle mode).
  - destruct (uses_xor mode).
    + destruct (apply_shuffle_round_trip (xor_transform arr k) s) as (enc & He & _ & Hd).
      { apply xor_transform_well_shaped, Hw. }
      exists enc. rewrite He, Hd. result_simpl.
      rewrite xor_transform_involutive. auto.
    + destruct (apply_shuffle_round_trip arr s Hw) as (enc & He & _ & Hd).
      exists enc. rewrite He, Hd. auto.
  - eexists. split; [reflexivity|]. result_simpl.
    destruct (uses_xor mode); [rewrite xor_transform_involutive|]; reflexivity.
Qed.

End Pipeline.

(** ** [process] *)

Section ProcessProps.

Context {R : Runtime} {IO : ImageIO}.

(** [process] writes only through [save_array_as_image], and only when the
    pipeline returned an array. *)
Lemma process_raise (in_path out_path : string) (password : pystr)
    (mode action : string) (fs : filesystem) (arr : ndarray) (img_mode : string) (e : exn) :
  load_image_as_array in_path fs = Ok (arr, img_mode) ->
  pipeline arr password mode action = Raise e ->
  process in_path out_path password mode action fs = (Raise e, fs).
Proof. intros Hl Hp. unfold process. rewrite Hl, Hp. reflexivity. Qed.

Lemma process_Ok (in_path out_path : string) (password : pystr)
    (mode action : string) (fs : filesystem) (arr arr' : ndarray) (img_mode : string) :
  load_image_as_array in_path fs = Ok (arr, img_mode) ->
  pipeline arr password mode action = Ok arr' ->
  process in_path out_path password mode action fs
  = save_array_as_image arr' img_mode out_path fs.
Proof. intros Hl Hp. unfold process. rewrite Hl, Hp. reflexivity. Qed.


End ProcessProps.

(** ** A run through the image store

    With a store that gives back what was saved, encrypting a file and
    decrypting the result restores the image, for each mode. *)
Lemma process_round_trip_mem (R : Runtime) (in_path mid_path out_path : string)
    (password : pystr) (mode : string) (fs : gmap string (ndarray * string))
    (arr : ndarray) (img_mode : string) :
  fs !! in_path = Some (arr, img_mode) ->
  well_shaped arr ->
  is_Ok (encode_utf8 password) ->
  mode ∈ ["xor"; "shuffle"; "both"] ->
  exists (enc : ndarray) (fs1 fs2 : gmap string (ndarray * string)),
    @process R mem_io in_path mid_path password mode "encrypt" fs = (Ok tt, fs1)
    /\ fs1 !! mid_path = Some (enc, img_mode)
    /\ @process R mem_io mid_path out_path password mode "decrypt" fs1 = (Ok tt, fs2)
    /\ fs2 !! out_path = Some (arr, img_mode).
Proof.
  intros Hin Hw [bs Hbs] Hm.
  destruct (derive_encoded password bs Hbs)
    as (b0 & b1 & b2 & b3 & b4 & b5 & b6 & b7 & rest & _ & _ & Hk & Hs).
  destruct (pipeline_round_trip arr password mode _ _ Hk Hs Hm Hw) as (enc & He & Hd).
  exists enc, (<[mid_path:=(enc, img_mode)]> fs),
    (<[out_path:=(arr, img_mode)]> (<[mid_path:=(enc, img_mode)]> fs)).
  assert (<[mid_path:=(enc, img_mode)]> fs !! mid_path = Some (enc, img_mode)) as Hmid
    by apply lookup_insert_eq.
  repeat split.
  - rewrite (@process_Ok R mem_io _ _ _ _ _ _ arr enc img_mode); [reflexivity| |exact He].
    cbn. rewrite Hin. reflexivity.
  - exact Hmid.
  - rewrite (@process_Ok R mem_io _ _ _ _ _ _ enc arr img_mode); [reflexivity| |exact Hd].
    cbn. rewrite Hmid. reflexivity.
  - apply lookup_insert_eq.
Qed.

(** The scenario of section 8 of the design, on the sample runtime. *)
Example scenario_encrypt :
  @pipeline lcg_runtime demo abc "both" "encrypt"
  = Ok (NDArray [2%nat; 2%nat] [164; 176; 174; 146]).
Proof. vm_compute. reflexivity. Qed.

Example scenario_decrypt :
  @pipeline lcg_runtime (NDArray [2%nat; 2%nat] [164; 176; 174; 146]) abc "both" "decrypt"
  = Ok demo.
Proof. vm_compute. reflexivity. Qed.

(** The order of the checks: an unencodable password is met before an
    invalid mode. *)
Example scenario_surrogate_first :
  @pipeline lcg_runtime demo [0xD800] "bot" "encrypt" = Raise UnicodeEncodeError.
Proof. reflexivity. Qed.

(** ** Generators: the contract of the draws *)

#[global] Instance lcg_bounded : BoundedDraws lcg_runtime.
Proof.
  intros g max Hmax. cbn.
  pose proof (Z.mod_pos_bound (g / 2 ^ 33) (max + 1)). lia.
Qed.

(** Under the contract of the draws every step of the shuffle is a real
    exchange of two elements of the array. *)
Lemma shuffle_raw_step {R : Runtime} `{!BoundedDraws R}
    (i : nat) (a : list Z) (g : bitgen) :
  (S i < length a)%nat ->
  let j := Z.to_nat (random_interval g (Z.of_nat (S i))).1 in
  exists xj xi, a !! j = Some xj /\ a !! S i = Some xi
    /\ shuffle_raw (S i) a g
       = shuffle_raw i (<[S i:=xj]> (<[j:=xi]> a)) (random_interval g (Z.of_nat (S i))).2.
Proof.
  intros Hi j.
  destruct (swap_in_range a j (S i)) as (xj & xi & Hj & Hxi & Hswap);
    [apply draw_in_range | exact Hi |].
  exists xj, xi. repeat split; [exact Hj | exact Hxi |].
  cbn [shuffle_raw]. fold j.
  destruct (random_interval g (Z.of_nat (S i))) as [j' g'] eqn:Hd.
  cbn [fst snd] in *. subst j. rewrite Hswap. reflexivity.
Qed.

(** * The claims of the design document *)

(** C1. Full-pipeline round trip: for every well-shaped buffer [b] and every
    password [p] that UTF-8 can encode, the pipeline with mode "both" and
    action "encrypt" succeeds, its result is the forward shuffle (derived
    seed) of the XOR (derived key byte) of [b], and the pipeline with mode
    "both" and action "decrypt" on that result unshuffles, XORs and returns
    exactly [b]. *)
Theorem round_trip_both (R : Runtime) (b : ndarray) (p : pystr) :
  well_shaped b ->
  is_Ok (encode_utf8 p) ->
  exists (k s : Z) (enc unshuffled : ndarray),
    derive_key_byte p = Ok k /\ derive_seed p = Ok s
    /\ apply_shuffle (xor_transform b k) s true = Ok enc
    /\ pipeline b p "both" "encrypt" = Ok enc
    /\ apply_shuffle enc s false = Ok unshuffled
    /\ xor_transform unshuffled k = b
    /\ pipeline enc p "both" "decrypt" = Ok b.
Proof.
  intros Hw [bs Hbs].
  destruct (derive_encoded p bs Hbs)
    as (b0 & b1 & b2 & b3 & b4 & b5 & b6 & b7 & rest & _ & _ & Hk & Hs).
  set (k := b0) in *. set (s := be64 b0 b1 b2 b3 b4 b5 b6 b7) in *.
  assert ("both" ∈ ["xor"; "shuffle"; "both"]) as Hm by (apply str_in_true; reflexivity).
  destruct (apply_shuffle_round_trip (xor_transform b k) s) as (enc & He & _ & Hd).
  { apply xor_transform_well_shaped, Hw. }
  exists k, s, enc, (xor_transform b k).
  rewrite (pipeline_encrypt b p "both" k s Hk Hs Hm).
  rewrite (pipeline_decrypt enc p "both" k s Hk Hs Hm).
  change (uses_xor "both") with true. change (uses_shuffle "both") with true.
  cbv zeta iota. rewrite Hd. result_simpl. rewrite xor_transform_involutive.
  repeat split; assumption || reflexivity.
Qed.

Lemma round_trip_both_witness :
  exists (k s : Z) (enc unshuffled : ndarray),
    derive_key_byte abc = Ok k /\ derive_seed abc = Ok s
    /\ @apply_shuffle lcg_runtime (xor_transform demo k) s true = Ok enc
    /\ @pipeline lcg_runtime demo abc "both" "encrypt" = Ok enc
    /\ @apply_shuffle lcg_runtime enc s false = Ok unshuffled
    /\ xor_transform unshuffled k = demo
    /\ @pipeline lcg_runtime enc abc "both" "decrypt" = Ok demo.
Proof.
  apply (round_trip_both lcg_runtime demo abc).
  - reflexivity.
  - exists [97; 98; 99]. reflexivity.
Defined.

(** C2. Shuffle round trip: for every well-shaped buffer [b] and every
    64-bit seed [s], [apply_shuffle] with [encrypt=True] succeeds, and
    [apply_shuffle] with [encrypt=False] and the same seed on its result
    returns exactly [b]. *)
Theorem shuffle_round_trip (R : Runtime) (b : ndarray) (s : Z) :
  well_shaped b ->
  is_uint64 s ->
  exists shuffled, apply_shuffle b s true = Ok shuffled
    /\ apply_shuffle shuffled s false = Ok b.
Proof.
  intros Hw _.
  destruct (apply_shuffle_round_trip b s Hw) as (shuffled & He & _ & Hd).
  exists shuffled. split; assumption.
Qed.

Lemma shuffle_round_trip_witness :
  exists shuffled, @apply_shuffle lcg_runtime demo 13436514500253700074 true = Ok shuffled
    /\ @apply_shuffle lcg_runtime shuffled 13436514500253700074 false = Ok demo.
Proof.
  apply (shuffle_round_trip lcg_runtime demo 13436514500253700074).
  - reflexivity.
  - unfold is_uint64. lia.
Defined.

(** C3. XOR self-inverse: for every buffer [b] and every key byte [k] in
    [0..255], applying [xor_transform] twice with [k] returns [b]. *)
Theorem xor_self_inverse (b : ndarray) (k : Z) :
  is_uint8 k ->
  xor_transform (xor_transform b k) k = b.
Proof.
  intros _. apply xor_transform_involutive.
Qed.

Lemma xor_self_inverse_witness :
  xor_transform (xor_transform demo 186) 186 = demo.
Proof.
  apply (xor_self_inverse demo 186). unfold is_uint8. lia.
Defined.

(** C4. Bijection invariant: for every [n] and every 64-bit seed,
    [permutation_for_length n seed] has length [n] (none for [n <= 0]), holds
    each value of [0..n-1] exactly once and nothing else; for [n = 0] it is
    empty and for [n = 1] it is [[0]]. *)
Theorem permutation_bijection (R : Runtime) (n seed : Z) :
  is_uint64 seed ->
  length (permutation_for_length n seed) = Z.to_nat n
  /\ (forall v, 0 <= v < n ->
        count_occ Z.eq_dec (permutation_for_length n seed) v = 1%nat)
  /\ (forall v, v ∈ permutation_for_length n seed -> 0 <= v < n)
  /\ permutation_for_length 0 seed = []
  /\ permutation_for_length 1 seed = [0].
Proof.
  intros _.
  split; [apply permutation_for_length_length|].
  split; [intros v; apply permutation_for_length_count|].
  split; [intros v; apply permutation_for_length_elem|].
  split; reflexivity.
Qed.

Lemma permutation_bijection_witness :
  length (@permutation_for_length lcg_runtime 10 12345) = Z.to_nat 10
  /\ (forall v, 0 <= v < 10 ->
        count_occ Z.eq_dec (@permutation_for_length lcg_runtime 10 12345) v = 1%nat)
  /\ (forall v, v ∈ @permutation_for_length lcg_runtime 10 12345 -> 0 <= v < 10)
  /\ @permutation_for_length lcg_runtime 0 12345 = []
  /\ @permutation_for_length lcg_runtime 1 12345 = [0].
Proof.
  apply (permutation_bijection lcg_runtime 10 12345). unfold is_uint64. lia.
Defined.

Example permutation_of_ten :
  @permutation_for_length lcg_runtime 10 12345 = [5; 3; 4; 6; 9; 1; 2; 8; 7; 0].
Proof. vm_compute. reflexivity. Qed.

(** C5. Key derivation contract: when the password has a UTF-8 encoding
    [bs], the key byte is the first byte of the SHA-256 digest of [bs], a
    value of [0..255], and the seed is the big-endian value of the first
    eight bytes of that digest, a value below [2^64]; when it has none,
    both derivations raise the encoder's exception.  Passwords made of
    Unicode scalar values always have an encoding. *)
Theorem key_derivation_contract (p : pystr) :
  match encode_utf8 p with
  | Ok bs =>
      exists b0 b1 b2 b3 b4 b5 b6 b7 rest,
        SHA256.digest bs = b0 :: b1 :: b2 :: b3 :: b4 :: b5 :: b6 :: b7 :: rest
        /\ length (SHA256.digest bs) = 32%nat
        /\ derive_key_byte p = Ok b0
        /\ 0 <= b0 <= 255
        /\ derive_seed p = Ok (be64 b0 b1 b2 b3 b4 b5 b6 b7)
        /\ 0 <= be64 b0 b1 b2 b3 b4 b5 b6 b7 < 2 ^ 64
  | Raise e => derive_key_byte p = Raise e /\ derive_seed p = Raise e
  end
  /\ (Forall scalar_value p -> is_Ok (encode_utf8 p)).
Proof.
  split; [|apply encode_utf8_scalar].
  destruct (encode_utf8 p) as [bs|e] eqn:He.
  - destruct (derive_encoded p bs He)
      as (b0 & b1 & b2 & b3 & b4 & b5 & b6 & b7 & rest & Hd & Hb & Hk & Hs).
    exists b0, b1, b2, b3, b4, b5, b6, b7, rest.
    pose proof (be64_range _ _ _ _ _ _ _ _ Hb) as [Hr _].
    apply Forall_cons in Hb as [H0 _]. unfold is_uint8 in H0.
    split; [exact Hd|]. split; [apply digest_length|].
    repeat split; try assumption; lia.
  - apply derive_unencodable, He.
Qed.

Example key_derivation_abc :
  derive_key_byte abc = Ok 0xba /\ derive_seed abc = Ok 0xba7816bf8f01cfea.
Proof. split; vm_compute; reflexivity. Qed.

(** C6. XOR transform, pointwise: for every buffer [b] and key byte [k] in
    [0..255], [xor_transform b k] has the shape and the length of [b], its
    element at every index [i] is [b[i] XOR k], it is again an array of
    bytes when [b] is, and an empty buffer comes back unchanged.  The
    function is total: it raises on no contents. *)
Theorem xor_pointwise (b : ndarray) (k : Z) :
  is_uint8 k ->
  shape (xor_transform b k) = shape b
  /\ length (data (xor_transform b k)) = length (data b)
  /\ (forall (i : nat) (x : Z),
        data b !! i = Some x -> data (xor_transform b k) !! i = Some (Z.lxor x k))
  /\ (Forall is_uint8 (data b) -> Forall is_uint8 (data (xor_transform b k)))
  /\ (data b = [] -> xor_transform b k = b).
Proof.
  intros Hk.
  split; [apply xor_transform_shape|].
  split; [apply xor_transform_length|].
  split; [|split].
  - intros i x Hi. rewrite (xor_transform_lookup b k i Hk), Hi. reflexivity.
  - apply xor_transform_uint8, Hk.
  - intros He. destruct b as [sh d]. cbn [data] in He. subst d. reflexivity.
Qed.

Lemma xor_pointwise_witness :
  shape (xor_transform demo 186) = shape demo
  /\ length (data (xor_transform demo 186)) = length (data demo)
  /\ (forall (i : nat) (x : Z),
        data demo !! i = Some x ->
        data (xor_transform demo 186) !! i = Some (Z.lxor x 186))
  /\ (Forall is_uint8 (data demo) ->
      Forall is_uint8 (data (xor_transform demo 186)))
  /\ (data demo = [] -> xor_transform demo 186 = demo).
Proof.
  apply (xor_pointwise demo 186). unfold is_uint8. lia.
Defined.

(** C7. Shuffle and unshuffle, pointwise: for every well-shaped buffer [b]
    of [n] elements and every 64-bit seed [s], with
    [perm = permutation_for_length n s]: the forward shuffle succeeds and its
    result [out] has [out[i] = b[perm[i]]] for every [i < n]; the inverse
    shuffle computes an array [inv] with [inv[perm[i]] = i] for every
    [i < n], succeeds, and its result has [out[i] = b[inv[i]]] for every
    [i < n]; both results have the shape and the length of [b]. *)
Theorem shuffle_pointwise (R : Runtime) (b : ndarray) (s : Z) :
  well_shaped b ->
  is_uint64 s ->
  let n := length (data b) in
  let perm := permutation_for_length (Z.of_nat n) s in
  length perm = n
  /\ (exists out, apply_shuffle b s true = Ok out
        /\ shape out = shape b /\ length (data out) = n
        /\ forall i : nat, (i < n)%nat ->
             exists p x, perm !! i = Some p /\ 0 <= p < Z.of_nat n
               /\ data b !! Z.to_nat p = Some x /\ data out !! i = Some x)
  /\ (exists inv out, invert perm = Ok inv /\ length inv = n
        /\ (forall i : nat, (i < n)%nat ->
              exists p, perm !! i = Some p /\ 0 <= p < Z.of_nat n
                /\ inv !! Z.to_nat p = Some (Z.of_nat i))
        /\ apply_shuffle b s false = Ok out
        /\ shape out = shape b /\ length (data out) = n
        /\ forall i : nat, (i < n)%nat ->
             exists q x, inv !! i = Some q /\ 0 <= q < Z.of_nat n
               /\ data b !! Z.to_nat q = Some x /\ data out !! i = Some x).
Proof.
  intros Hw _ n perm.
  destruct (permutation_for_length_self n s) as [Hl _]. fold perm in Hl.
  pose proof (permutation_for_length_range (Z.of_nat n) s) as Hr. fold perm in Hr.
  assert (forall i : nat, (i < n)%nat ->
            exists p, perm !! i = Some p /\ 0 <= p < Z.of_nat n) as Hperm.
  { intros i Hi. destruct (lookup_lt_is_Some_2 perm i) as [p Hp]; [lia|].
    exists p. split; [exact Hp|]. exact (proj1 (Forall_lookup _ _) Hr i p Hp). }
  split; [exact Hl|]. split.
  - destruct (apply_shuffle_encrypt b s Hw) as (out & Hout & Hs & Hlen & Hget).
    exists out. repeat split; try assumption.
    intros i Hi. destruct (Hperm i Hi) as (p & Hp & Hpr).
    destruct (lookup_lt_is_Some_2 (data b) (Z.to_nat p)) as [x Hx]; [fold n; lia|].
    exists p, x. rewrite (Hget i p Hp). auto.
  - destruct (apply_shuffle_decrypt b s Hw)
      as (inv & out & Hinv & Hout & Hil & Hir & Hslot & Hs & Hlen & Hget).
    exists inv, out. repeat split; try assumption.
    + intros i Hi. destruct (Hperm i Hi) as (p & Hp & Hpr).
      exists p. auto.
    + intros i Hi. destruct (lookup_lt_is_Some_2 inv i) as [q Hq]; [lia|].
      pose proof (proj1 (Forall_lookup _ _) Hir i q Hq) as Hqr. cbv beta in Hqr.
      destruct (lookup_lt_is_Some_2 (data b) (Z.to_nat q)) as [x Hx]; [lia|].
      exists q, x. rewrite (Hget i q Hq). auto.
Qed.

Lemma shuffle_pointwise_witness :
  let n := length (data demo) in
  let perm := @permutation_for_length lcg_runtime (Z.of_nat n) 12345 in
  length perm = n
  /\ (exists out, @apply_shuffle lcg_runtime demo 12345 true = Ok out
        /\ shape out = shape demo /\ length (data out) = n
        /\ forall i : nat, (i < n)%nat ->
             exists p x, perm !! i = Some p /\ 0 <= p < Z.of_nat n
               /\ data demo !! Z.to_nat p = Some x /\ data out !! i = Some x)
  /\ (exists inv out, @invert lcg_runtime perm = Ok inv /\ length inv = n
        /\ (forall i : nat, (i < n)%nat ->
              exists p, perm !! i = Some p /\ 0 <= p < Z.of_nat n
                /\ inv !! Z.to_nat p = Some (Z.of_nat i))
        /\ @apply_shuffle lcg_runtime demo 12345 false = Ok out
        /\ shape out = shape demo /\ length (data out) = n
        /\ forall i : nat, (i < n)%nat ->
             exists q x, inv !! i = Some q /\ 0 <= q < Z.of_nat n
               /\ data demo !! Z.to_nat q = Some x /\ data out !! i = Some x).
Proof.
  apply (shuffle_pointwise lcg_runtime demo 12345).
  - reflexivity.
  - unfold is_uint64. lia.
Defined.




(** C10. Key material coupling: for every password that UTF-8 can encode,
    both derivations succeed and the key byte is the most significant byte
    of the 64-bit seed: [derive_key_byte p = derive_seed p div 2^56]. *)
Theorem key_byte_is_top_byte_of_seed (p : pystr) :
  is_Ok (encode_utf8 p) ->
  exists k s : Z,
    derive_key_byte p = Ok k /\ derive_seed p = Ok s /\ k = s / 2 ^ 56.
Proof.
  intros [bs Hbs].
  destruct (derive_encoded p bs Hbs)
    as (b0 & b1 & b2 & b3 & b4 & b5 & b6 & b7 & rest & _ & Hb & Hk & Hs).
  exists b0, (be64 b0 b1 b2 b3 b4 b5 b6 b7).
  destruct (be64_range _ _ _ _ _ _ _ _ Hb) as [_ Hdiv]. auto.
Qed.

Lemma key_byte_is_top_byte_of_seed_witness :
  exists k s : Z,
    derive_key_byte abc = Ok k /\ derive_seed abc = Ok s /\ k = s / 2 ^ 56.
Proof.
  apply (key_byte_is_top_byte_of_seed abc). exists [97; 98; 99]. reflexivity.
Defined.

(** * Further properties of the transforms and of [process] *)

(** ** Gathering *)

Lemma getitem_map (f : Z -> Z) (flat : list Z) (k : nat) :
  getitem (map f flat) k = f <$> getitem flat k.
Proof.
  unfold getitem. change (map f flat) with (f <$> flat).
  rewrite list_lookup_fmap. destruct (flat !! k); reflexivity.
Qed.

(** A gather reads positions: it commutes with any change of the values. *)
Lemma take_fancy_map (f : Z -> Z) (flat idx : list Z) :
  take_fancy (map f flat) idx = map f <$> take_fancy flat idx.
Proof.
  induction idx as [|i idx IH]; cbn [take_fancy]; [reflexivity|].
  rewrite length_map. destruct (np_index (length flat) i) as [k|e]; [|reflexivity].
  result_simpl. rewrite getitem_map.
  destruct (getitem flat k) as [x|e]; [|reflexivity]. result_simpl.
  rewrite IH. destruct (take_fancy flat idx); reflexivity.
Qed.

Lemma reshape_map (f : Z -> Z) (d : list Z) (sh : list nat) :
  reshape (map f d) sh = map_data f <$> reshape d sh.
Proof.
  unfold reshape. rewrite length_map.
  destruct (decide (length d = shape_size sh)); reflexivity.
Qed.

(** A gather through indices inside the array, as a map over the indices. *)
Lemma take_fancy_items (flat idx : list Z) :
  Forall (fun k => 0 <= k < Z.of_nat (length flat)) idx ->
  take_fancy flat idx = Ok (item flat <$> idx).
Proof.
  intros Hr. destruct (take_fancy_in_range flat idx Hr) as (out & -> & Hlen & Hget).
  f_equal. apply list_eq. intros i. rewrite list_lookup_fmap.
  destruct (idx !! i) as [k|] eqn:Hi; cbn [fmap option_fmap option_map].
  - rewrite (Hget i k Hi). unfold item.
    destruct (lookup_lt_is_Some_2 flat (Z.to_nat k)) as [x ->]; [|reflexivity].
    pose proof (proj1 (Forall_lookup _ _) Hr i k Hi) as Hk. cbv beta in Hk. lia.
  - apply lookup_ge_None_2. apply lookup_ge_None_1 in Hi. lia.
Qed.

Lemma items_arange (flat : list Z) :
  item flat <$> np_arange (Z.of_nat (length flat)) = flat.
Proof.
  apply list_eq. intros i. rewrite list_lookup_fmap.
  destruct (decide (i < length flat)%nat) as [Hi|Hi].
  - assert (np_arange (Z.of_nat (length flat)) !! i = Some (Z.of_nat i)) as ->.
    { apply np_arange_lookup. lia. }
    cbn [fmap option_fmap option_map]. unfold item. rewrite Nat2Z.id.
    destruct (lookup_lt_is_Some_2 flat i Hi) as [x ->]. reflexivity.
  - rewrite (lookup_ge_None_2 flat) by lia.
    assert (np_arange (Z.of_nat (length flat)) !! i = None) as ->; [|reflexivity].
    apply lookup_ge_None_2. rewrite np_arange_length. lia.
Qed.

(** Gathering through a permutation of the indices rearranges the array. *)
Lemma take_fancy_Permutation (flat idx out : list Z) :
  idx ≡ₚ np_arange (Z.of_nat (length flat)) ->
  take_fancy flat idx = Ok out ->
  out ≡ₚ flat.
Proof.
  intros Hp Hout.
  rewrite take_fancy_items in Hout.
  - injection Hout as <-. rewrite Hp. rewrite items_arange. reflexivity.
  - apply Forall_forall. intros k Hk. rewrite Hp in Hk.
    apply np_arange_elem in Hk. exact Hk.
Qed.

(** ** The inverse permutation *)

Section Inverse.

Context {R : Runtime}.

(** The array [invert] builds from a permutation is a permutation, and the
    two invert one another from both sides. *)
Lemma invert_two_sided (perm : list Z) :
  perm ≡ₚ np_arange (Z.of_nat (length perm)) ->
  exists inv, invert perm = Ok inv
    /\ length inv = length perm
    /\ inv ≡ₚ np_arange (Z.of_nat (length inv))
    /\ (forall (i : nat) (p : Z),
          perm !! i = Some p -> inv !! Z.to_nat p = Some (Z.of_nat i))
    /\ (forall (k : nat) (q : Z),
          inv !! k = Some q -> perm !! Z.to_nat q = Some (Z.of_nat k)).
Proof.
  intros Hp.
  destruct (invert_permutation perm Hp) as (inv & Hinv & Hl & Hslot & Hr).
  assert (forall (k : nat) (q : Z),
            inv !! k = Some q -> perm !! Z.to_nat q = Some (Z.of_nat k)) as Hback.
  { intros k q Hk.
    assert (Z.of_nat k ∈ perm) as Hin.
    { rewrite Hp. apply np_arange_elem. apply lookup_lt_Some in Hk. lia. }
    apply list_elem_of_lookup_1 in Hin as [i Hi].
    pose proof (Hslot i _ Hi) as Hv. rewrite Nat2Z.id, Hk in Hv.
    injection Hv as ->. rewrite Nat2Z.id. exact Hi. }
  exists inv. repeat split; try assumption.
  rewrite Hl. apply NoDup_Permutation.
  - apply NoDup_alt. intros a b q Ha Hb.
    pose proof (Hback a q Ha) as H1. pose proof (Hback b q Hb) as H2.
    rewrite H1 in H2. injection H2 as H2. lia.
  - apply np_arange_NoDup.
  - intros q. rewrite np_arange_elem. split.
    + intros Hq. exact (proj1 (Forall_forall _ _) Hr q Hq).
    + intros Hq. destruct (lookup_lt_is_Some_2 perm (Z.to_nat q)) as [p Hq']; [lia|].
      pose proof (Hslot _ _ Hq') as Hv. rewrite Z2Nat.id in Hv by lia.
      eapply list_elem_of_lookup_2, Hv.
Qed.

(** Inverting twice gives the permutation back. *)
Lemma invert_invert (perm inv : list Z) :
  perm ≡ₚ np_arange (Z.of_nat (length perm)) ->
  invert perm = Ok inv ->
  invert inv = Ok perm.
Proof.
  intros Hp Hinv.
  destruct (invert_two_sided perm Hp) as (inv0 & Hinv0 & Hl & Hpi & _ & Hback).
  rewrite Hinv in Hinv0. injection Hinv0 as <-.
  destruct (invert_two_sided inv Hpi) as (perm' & -> & Hl' & _ & Hslot' & _).
  f_equal. apply list_eq. intros i.
  destruct (perm !! i) as [p|] eqn:Hi.
  - assert (inv !! Z.to_nat p = Some (Z.of_nat i)) as Hv.
    { destruct (invert_permutation perm Hp) as (inv1 & Hinv1 & _ & Hslot & _).
      rewrite Hinv in Hinv1. injection Hinv1 as <-. exact (Hslot i p Hi). }
    pose proof (Hslot' _ _ Hv) as Hw. rewrite Nat2Z.id in Hw. rewrite Hw.
    f_equal. apply Z2Nat.id.
    assert (p ∈ perm) as Hin by (eapply list_elem_of_lookup_2; exact Hi).
    rewrite Hp in Hin. apply np_arange_elem in Hin. lia.
  - apply lookup_ge_None_2. apply lookup_ge_None_1 in Hi. lia.
Qed.

(** ** More on [apply_shuffle] *)

(** The shuffle looks at positions only. *)
Lemma apply_shuffle_map (f : Z -> Z) (arr : ndarray) (seed : Z) (encrypt : bool) :
  apply_shuffle (map_data f arr) seed encrypt
  = map_data f <$> apply_shuffle arr seed encrypt.
Proof.
  unfold apply_shuffle. cbn [data shape map_data]. rewrite length_map.
  set (perm := permutation_for_length (Z.of_nat (length (data arr))) seed).
  destruct encrypt.
  - rewrite take_fancy_map.
    destruct (take_fancy (data arr) perm) as [d|e]; [|reflexivity].
    result_simpl. apply reshape_map.
  - destruct (invert perm) as [inv|e]; [|reflexivity]. result_simpl.
    rewrite take_fancy_map.
    destruct (take_fancy (data arr) inv) as [d|e]; [|reflexivity].
    result_simpl. apply reshape_map.
Qed.

(** Both directions rearrange the elements and keep the shape. *)
Lemma apply_shuffle_Permutation (arr : ndarray) (seed : Z) (encrypt : bool) :
  well_shaped arr ->
  exists out, apply_shuffle arr seed encrypt = Ok out
    /\ shape out = shape arr
    /\ data out ≡ₚ data arr.
Proof.
  intros Hw.
  destruct (permutation_for_length_self (length (data arr)) seed) as [Hl Hp].
  set (perm := permutation_for_length (Z.of_nat (length (data arr))) seed) in *.
  destruct encrypt.
  - destruct (apply_shuffle_encrypt arr seed Hw) as (out & Hout & Hs & _ & _).
    exists out. repeat split; try assumption.
    unfold apply_shuffle in Hout. fold perm in Hout.
    destruct (take_fancy (data arr) perm) as [d|e] eqn:Hd; [|discriminate Hout].
    result_simpl. unfold reshape in Hout. case_decide; [|discriminate Hout].
    injection Hout as <-. cbn [data].
    apply (take_fancy_Permutation (data arr) perm d); [|exact Hd].
    rewrite Hl in Hp. exact Hp.
  - destruct (apply_shuffle_decrypt arr seed Hw)
      as (inv & out & Hinv & Hout & _ & _ & _ & Hs & _ & _).
    exists out. repeat split; try assumption.
    fold perm in Hinv.
    destruct (invert_two_sided perm Hp) as (inv0 & Hinv0 & Hil & Hpi & _).
    rewrite Hinv in Hinv0. injection Hinv0 as <-.
    unfold apply_shuffle in Hout. fold perm in Hout. rewrite Hinv in Hout.
    result_simpl.
    destruct (take_fancy (data arr) inv) as [d|e] eqn:Hd; [|discriminate Hout].
    result_simpl. unfold reshape in Hout. case_decide; [|discriminate Hout].
    injection Hout as <-. cbn [data].
    apply (take_fancy_Permutation (data arr) inv d); [|exact Hd].
    rewrite Hil, Hl in Hpi. exact Hpi.
Qed.

(** Shuffling an unshuffled array gives the array back. *)
Lemma apply_shuffle_round_trip_back (arr : ndarray) (seed : Z) :
  well_shaped arr ->
  exists arr1, apply_shuffle arr seed false = Ok arr1
    /\ well_shaped arr1
    /\ apply_shuffle arr1 seed true = Ok arr.
Proof.
  intros Hw.
  destruct (apply_shuffle_decrypt arr seed Hw)
    as (inv & arr1 & _ & H1 & Hil & _ & Hslot & Hs1 & Hl1 & Hg1).
  assert (well_shaped arr1) as Hw1.
  { unfold well_shaped in *. congruence. }
  exists arr1. repeat split; [exact H1 | exact Hw1 |].
  destruct (apply_shuffle_encrypt arr1 seed Hw1) as (out & H2 & Hs2 & Hl2 & Hg2).
  rewrite Hl1 in *.
  rewrite H2. f_equal. destruct out as [sh d], arr as [sh0 d0].
  cbn [shape data] in *. f_equal; [congruence|].
  apply list_eq. intros i.
  destruct (permutation_for_length (Z.of_nat (length d0)) seed !! i) as [p|] eqn:Hi.
  - rewrite (Hg2 i p Hi), (Hg1 _ _ (Hslot i p Hi)), Nat2Z.id. reflexivity.
  - apply lookup_ge_None_1 in Hi. rewrite permutation_for_length_length in Hi.
    rewrite !lookup_ge_None_2 by lia. reflexivity.
Qed.

End Inverse.

(** ** More on the pipeline *)

Lemma utf8_encode_char_error (c : Z) (e : exn) :
  utf8_encode_char c = Raise e -> e = UnicodeEncodeError.
Proof.
  unfold utf8_encode_char. repeat case_match; congruence.
Qed.

(** The encoder raises nothing but [UnicodeEncodeError]. *)
Lemma encode_utf8_error (s : pystr) (e : exn) :
  encode_utf8 s = Raise e -> e = UnicodeEncodeError.
Proof.
  induction s as [|c s IH]; cbn [encode_utf8]; [discriminate|].
  destruct (utf8_encode_char c) as [bs|e1] eqn:Hc; result_simpl.
  - destruct (encode_utf8 s) as [rest|e2]; result_simpl; [discriminate|].
    intros H. injection H as <-. apply IH. reflexivity.
  - intros H. injection H as <-. exact (utf8_encode_char_error c e1 Hc).
Qed.

Lemma xor_transform_map_data (arr : ndarray) (k : Z) :
  xor_transform arr k = map_data (fun x => Z.lxor x (np_uint8 k)) arr.
Proof. reflexivity. Qed.

Lemma action_cases (action : string) :
  action ∈ ["encrypt"; "decrypt"] -> action = "encrypt"%string \/ action = "decrypt"%string.
Proof.
  intros H. apply elem_of_cons in H as [H|H]; [left; exact H|].
  apply elem_of_cons in H as [H|H]; [right; exact H|].
  apply elem_of_nil in H. contradiction.
Qed.

Section PipelineMore.

Context {R : Runtime}.

(** With key material and valid arguments the pipeline returns: none of the
    transforms raises on a well-shaped array.  The result has the shape of
    the input, and its elements are those of the input, masked when the
    mode selects the XOR, in another order when it selects the shuffle. *)
Lemma pipeline_valid (arr : ndarray) (password : pystr) (mode action : string) (k s : Z) :
  derive_key_byte password = Ok k ->
  derive_seed password = Ok s ->
  mode ∈ ["xor"; "shuffle"; "both"] ->
  action ∈ ["encrypt"; "decrypt"] ->
  well_shaped arr ->
  exists out, pipeline arr password mode action = Ok out
    /\ shape out = shape arr
    /\ data out ≡ₚ data (if uses_xor mode then xor_transform arr k else arr)
    /\ (uses_shuffle mode = false ->
        out = if uses_xor mode then xor_transform arr k else arr).
Proof.
  intros Hk Hs Hm Ha Hw.
  destruct (action_cases action Ha) as [-> | ->].
  - rewrite (pipeline_encrypt arr password mode k s Hk Hs Hm). cbv zeta.
    set (arr1 := if uses_xor mode then xor_transform arr k else arr).
    assert (well_shaped arr1) as Hw1.
    { subst arr1. destruct (uses_xor mode); [apply xor_transform_well_shaped|]; exact Hw. }
    assert (shape arr1 = shape arr) as Hs1.
    { subst arr1. destruct (uses_xor mode); reflexivity. }
    destruct (uses_shuffle mode).
    + destruct (apply_shuffle_Permutation arr1 s true Hw1) as (out & Hout & Hso & Hp).
      exists out. repeat split; [exact Hout | congruence | exact Hp | discriminate].
    + exists arr1. repeat split; [exact Hs1 | reflexivity].
  - rewrite (pipeline_decrypt arr password mode k s Hk Hs Hm).
    destruct (uses_shuffle mode).
    + destruct (apply_shuffle_Permutation arr s false Hw) as (arr1 & -> & Hs1 & Hp).
      result_simpl. eexists. split; [reflexivity|].
      destruct (uses_xor mode).
      * repeat split; [exact Hs1 | | discriminate].
        unfold xor_transform. cbn [data]. apply Permutation_map, Hp.
      * repeat split; [exact Hs1 | exact Hp | discriminate].
    + result_simpl. eexists. split; [reflexivity|].
      destruct (uses_xor mode); repeat split; reflexivity.
Qed.

(** Encrypting a decrypted array gives the array back, for each mode. *)
Lemma pipeline_round_trip_back (arr : ndarray) (password : pystr) (mode : string) (k s : Z) :
  derive_key_byte password = Ok k ->
  derive_seed password = Ok s ->
  mode ∈ ["xor"; "shuffle"; "both"] ->
  well_shaped arr ->
  exists dec, pipeline arr password mode "decrypt" = Ok dec
    /\ pipeline dec password mode "encrypt" = Ok arr.
Proof.
  intros Hk Hs Hm Hw.
  setoid_rewrite (pipeline_encrypt _ _ _ _ _ Hk Hs Hm).
  setoid_rewrite (pipeline_decrypt _ _ _ _ _ Hk Hs Hm).
  cbn zeta. destruct (uses_shuffle mode).
  - destruct (apply_shuffle_round_trip_back arr s Hw) as (arr1 & Hd & _ & He).
    rewrite Hd. result_simpl. eexists. split; [reflexivity|].
    destruct (uses_xor mode); [rewrite xor_transform_involutive|]; exact He.
  - result_simpl. eexists. split; [reflexivity|].
    destruct (uses_xor mode); [rewrite xor_transform_involutive|]; reflexivity.
Qed.

(** The single transforms, as the pipeline runs them. *)
Lemma pipeline_xor_only (arr : ndarray) (password : pystr) (action : string) (k s : Z) :
  derive_key_byte password = Ok k ->
  derive_seed password = Ok s ->
  action ∈ ["encrypt"; "decrypt"] ->
  pipeline arr password "xor" action = Ok (xor_transform arr k).
Proof.
  intros Hk Hs Ha. assert ("xor" ∈ ["xor"; "shuffle"; "both"]) as Hm
    by (apply str_in_true; reflexivity).
  destruct (action_cases action Ha) as [-> | ->].
  - rewrite (pipeline_encrypt arr password "xor" k s Hk Hs Hm). reflexivity.
  - rewrite (pipeline_decrypt arr password "xor" k s Hk Hs Hm). reflexivity.
Qed.

Lemma pipeline_shuffle_only (arr : ndarray) (password : pystr) (k s : Z) :
  derive_key_byte password = Ok k ->
  derive_seed password = Ok s ->
  pipeline arr password "shuffle" "decrypt" = apply_shuffle arr s false.
Proof.
  intros Hk Hs. assert ("shuffle" ∈ ["xor"; "shuffle"; "both"]) as Hm
    by (apply str_in_true; reflexivity).
  rewrite (pipeline_decrypt arr password "shuffle" k s Hk Hs Hm).
  change (uses_shuffle "shuffle") with true. change (uses_xor "shuffle") with false.
  cbv iota. apply bind_Ok_r.
Qed.

End PipelineMore.

(** ** Paths: [rfind] and [splitext] *)

Example splitext_samples :
  map Files.splitext ["foo.png"; ".png"; "dir.d/file"; "foo."; "a/.b.c"; "x.tar.gz"; "a/..b"]
  = [("foo", ".png"); (".png", ""); ("dir.d/file", ""); ("foo", "."); ("a/.b", ".c");
     ("x.tar", ".gz"); ("a/..b", "")]%string.
Proof. vm_compute. reflexivity. Qed.

Lemma rfind_range (c : ascii) (p : list ascii) :
  -1 <= Files.rfind c p < Z.of_nat (length p).
Proof.
  induction p as [|x p IH]; cbn [Files.rfind length]; [lia|].
  destruct (Z.leb_spec 0 (Files.rfind c p)); [lia|].
  destruct (Ascii.eqb x c); lia.
Qed.

Lemma rfind_absent (c : ascii) (p : list ascii) :
  c ∉ p -> Files.rfind c p = -1.
Proof.
  induction p as [|x p IH]; intros Hc; cbn [Files.rfind]; [reflexivity|].
  apply not_elem_of_cons in Hc as [Hx Hp]. rewrite (IH Hp).
  destruct (Z.leb_spec 0 (-1)); [lia|].
  destruct (Ascii.eqb_spec x c); [congruence | reflexivity].
Qed.

Lemma rfind_app (c : ascii) (p q : list ascii) :
  Files.rfind c (p ++ q)
  = if 0 <=? Files.rfind c q then Z.of_nat (length p) + Files.rfind c q
    else Files.rfind c p.
Proof.
  induction p as [|x p IH]; cbn [app Files.rfind length].
  - pose proof (rfind_range c q). destruct (Z.leb_spec 0 (Files.rfind c q)); lia.
  - rewrite IH. pose proof (rfind_range c q).
    destruct (Z.leb_spec 0 (Files.rfind c q)).
    + destruct (Z.leb_spec 0 (Z.of_nat (length p) + Files.rfind c q)); lia.
    + reflexivity.
Qed.

Lemma take1_drop (k : nat) (p : list ascii) (c : ascii) :
  take 1 (drop k p) = [c] <-> p !! k = Some c.
Proof.
  rewrite <- (Nat.add_0_r k) at 2. rewrite <- lookup_drop.
  destruct (drop k p) as [|x t]; cbn.
  - split; discriminate.
  - rewrite take_0. split; congruence.
Qed.

(** The loop finds a name exactly when one of the positions it visits holds
    something other than a dot. *)
Lemma meets_name_spec (count k : nat) (p : list ascii) :
  Files.meets_name count k p = true
  <-> exists j : nat, (k <= j < k + count)%nat /\ p !! j <> Some "."%char.
Proof.
  revert k. induction count as [|count IH]; intros k; cbn [Files.meets_name].
  - split; [discriminate | intros (j & Hj & _); lia].
  - case_decide as Hd.
    + rewrite IH. apply take1_drop in Hd. split.
      * intros (j & Hj & Hne). exists j. split; [lia | exact Hne].
      * intros (j & Hj & Hne). exists j. split; [|exact Hne].
        destruct (decide (j = k)) as [->|]; [congruence | lia].
    + split; [|reflexivity]. intros _. exists k. split; [lia|].
      intros Hk. apply Hd, take1_drop, Hk.
Qed.

(** The split loses nothing. *)
Lemma splitext_chars_join (p : list ascii) :
  (Files.splitext_chars p).1 ++ (Files.splitext_chars p).2 = p.
Proof.
  unfold Files.splitext_chars.
  destruct (_ && _); cbn [fst snd]; [apply take_drop | apply app_nil_r].
Qed.

(** There is an extension exactly when the last dot stands after the last
    slash and something other than a dot stands between the two. *)
Lemma splitext_chars_ext (p : list ascii) :
  (Files.splitext_chars p).2 <> []
  <-> exists j : nat,
        Files.rfind "/" p < Z.of_nat j < Files.rfind "." p /\ p !! j <> Some "."%char.
Proof.
  unfold Files.splitext_chars.
  pose proof (rfind_range "/" p) as Hs. pose proof (rfind_range "." p) as Hd.
  destruct (Z.ltb_spec (Files.rfind "/" p) (Files.rfind "." p)) as [Hlt|Hge];
    cbn [andb].
  - destruct (Files.meets_name _ _ p) eqn:Hm; cbn [fst snd].
    + apply meets_name_spec in Hm as (j & Hj & Hne). split.
      * intros _. exists j. split; [lia | exact Hne].
      * intros _ He. apply (f_equal length) in He.
        rewrite length_drop in He. cbn [length] in He. lia.
    + split; [congruence|]. intros (j & Hj & Hne).
      assert (Files.meets_name (Z.to_nat (Files.rfind "." p - (Files.rfind "/" p + 1)))
                (Z.to_nat (Files.rfind "/" p + 1)) p = true) as Hm'.
      { apply meets_name_spec. exists j. split; [lia | exact Hne]. }
      congruence.
  - cbn [fst snd]. split; [congruence|]. intros (j & Hj & _). lia.
Qed.

Lemma string_of_list_ascii_app (p q : list ascii) :
  string_of_list_ascii (p ++ q)
  = (string_of_list_ascii p ++ string_of_list_ascii q)%string.
Proof.
  induction p as [|x p IH]; cbn; [reflexivity | rewrite IH; reflexivity].
Qed.

Lemma list_ascii_of_string_app (p q : string) :
  list_ascii_of_string (p ++ q) = list_ascii_of_string p ++ list_ascii_of_string q.
Proof.
  induction p as [|x p IH]; [reflexivity|].
  change (x :: list_ascii_of_string (p ++ q)
          = x :: (list_ascii_of_string p ++ list_ascii_of_string q)).
  f_equal. exact IH.
Qed.

Lemma string_of_list_ascii_nil (p : list ascii) :
  string_of_list_ascii p = ""%string <-> p = [].
Proof. destruct p; cbn; split; congruence. Qed.

(** The path [save_array_as_image] writes to, on characters. *)
Lemma output_path_chars (p : string) :
  list_ascii_of_string (Files.output_path p)
  = if decide ((Files.splitext_chars (list_ascii_of_string p)).2 = [])
    then list_ascii_of_string p ++ list_ascii_of_string ".png"
    else list_ascii_of_string p.
Proof.
  unfold Files.output_path, Files.splitext.
  pose proof (splitext_chars_join (list_ascii_of_string p)) as Hj.
  destruct (Files.splitext_chars (list_ascii_of_string p)) as [root ext].
  cbn [fst snd] in *. case_decide as He.
  - subst ext. cbn. rewrite app_nil_r in Hj. subst root.
    rewrite list_ascii_of_string_app, string_of_list_ascii_of_string. reflexivity.
  - destruct (String.eqb_spec (string_of_list_ascii ext) "") as [H0|_]; [|reflexivity].
    apply string_of_list_ascii_nil in H0. contradiction.
Qed.

Lemma splitext_snd (p : string) :
  (Files.splitext p).2
  = string_of_list_ascii (Files.splitext_chars (list_ascii_of_string p)).2.
Proof.
  unfold Files.splitext.
  destruct (Files.splitext_chars (list_ascii_of_string p)); reflexivity.
Qed.

Lemma splitext_ext_chars (p : string) :
  (Files.splitext p).2 <> ""%string
  <-> (Files.splitext_chars (list_ascii_of_string p)).2 <> [].
Proof. rewrite splitext_snd, string_of_list_ascii_nil. reflexivity. Qed.

Lemma output_path_cases (p : string) :
  ((Files.splitext p).2 = ""%string /\ Files.output_path p = (p ++ ".png")%string)
  \/ ((Files.splitext p).2 <> ""%string /\ Files.output_path p = p).
Proof.
  pose proof (output_path_chars p) as Hc.
  rewrite <- (string_of_list_ascii_of_string (Files.output_path p)), Hc.
  case_decide as He.
  - left. split.
    + rewrite splitext_snd, He. reflexivity.
    + rewrite string_of_list_ascii_app, !string_of_list_ascii_of_string. reflexivity.
  - right. split.
    + apply splitext_ext_chars, He.
    + apply string_of_list_ascii_of_string.
Qed.

(** The file name holds something other than a dot. *)
Lemma basename_has_name (p : list ascii) :
  (exists c, c ∈ Files.basename_chars p /\ c <> "."%char)
  <-> exists j : nat,
        Files.rfind "/" p < Z.of_nat j < Z.of_nat (length p) /\ p !! j <> Some "."%char.
Proof.
  unfold Files.basename_chars. pose proof (rfind_range "/" p) as Hs. split.
  - intros (c & Hin & Hc). apply list_elem_of_lookup_1 in Hin as [i Hi].
    rewrite lookup_drop in Hi. exists (Z.to_nat (Files.rfind "/" p + 1) + i)%nat.
    split; [|congruence]. apply lookup_lt_Some in Hi. lia.
  - intros (j & Hj & Hne).
    destruct (lookup_lt_is_Some_2 p j) as [c Hc]; [lia|].
    exists c. split; [|congruence].
    apply (list_elem_of_lookup_2 _ (j - Z.to_nat (Files.rfind "/" p + 1))).
    rewrite lookup_drop. rewrite <- Hc. f_equal. lia.
Qed.

Lemma output_chars_ext (p : list ascii) :
  (Files.splitext_chars
     (if decide ((Files.splitext_chars p).2 = [])
      then p ++ list_ascii_of_string ".png" else p)).2 <> []
  <-> exists c, c ∈ Files.basename_chars p /\ c <> "."%char.
Proof.
  rewrite basename_has_name. pose proof (rfind_range "." p) as Hd.
  case_decide as He.
  - rewrite splitext_chars_ext, !rfind_app.
    change (Files.rfind "/" (list_ascii_of_string ".png")) with (-1).
    change (Files.rfind "." (list_ascii_of_string ".png")) with 0.
    cbv iota. change (0 <=? -1) with false. change (0 <=? 0) with true. cbv iota.
    rewrite Z.add_0_r. split; intros (j & Hj & Hne); exists j; split; try lia.
    + rewrite lookup_app_l in Hne by lia. exact Hne.
    + rewrite lookup_app_l by lia. exact Hne.
  - split; [|intros _; exact He].
    intros H. apply splitext_chars_ext in H as (j & Hj & Hne).
    exists j. split; [lia | exact Hne].
Qed.

(** ** The I/O helpers *)

Lemma load_image_as_array_mode (P : Files.Pillow) (path : string) (fs : Files.disk)
    (arr : ndarray) (mode : string) :
  Files.ConvertGivesMode P ->
  Files.load_image_as_array path fs = Ok (arr, mode) ->
  mode ∈ Files.ALLOWED_MODES.
Proof.
  intros Hconv Hload. unfold Files.load_image_as_array in Hload.
  destruct (Files.Image_open path fs) as [img|e]; [|discriminate Hload].
  result_simpl.
  destruct (bool_decide (Files.image_mode img ∈ Files.ALLOWED_MODES)) eqn:Hb;
    cbn [negb] in Hload.
  - apply bool_decide_eq_true in Hb. result_simpl. cbn [fst snd] in Hload.
    destruct (Files.np_array_uint8 img); [|discriminate Hload].
    result_simpl. injection Hload as _ <-. exact Hb.
  - destruct (Files.image_convert img "RGBA") as [img'|e] eqn:Hc; [|discriminate Hload].
    result_simpl. cbn [fst snd] in Hload.
    destruct (Files.np_array_uint8 img'); [|discriminate Hload].
    result_simpl. injection Hload as _ <-.
    rewrite (Hconv img img' "RGBA"%string Hc).
    do 2 (apply elem_of_cons; right). apply elem_of_cons. left. reflexivity.
Qed.

#[global] Instance mem_pillow_convert : Files.ConvertGivesMode Files.mem_pillow.
Proof.
  intros img img' mode. cbn.
  destruct (shape img.1) as [|h [|w [|? ?]]]; try discriminate.
  intros H. injection H as <-. reflexivity.
Qed.

(** * Further properties, by entry *)

(** X1. Round trip in every mode: for a well-shaped array, a password that
    UTF-8 can encode and each of the modes xor, shuffle and both, the
    encrypt branch of [process] succeeds and the decrypt branch with the
    same mode and password returns the array from its result. *)
Theorem decrypt_after_encrypt_every_mode (R : Runtime) (arr : ndarray)
    (password : pystr) (mode : string) :
  well_shaped arr ->
  is_Ok (encode_utf8 password) ->
  mode ∈ ["xor"; "shuffle"; "both"] ->
  exists enc, pipeline arr password mode "encrypt" = Ok enc
    /\ pipeline enc password mode "decrypt" = Ok arr.
Proof.
  intros Hw [bs Hbs] Hm.
  destruct (derive_encoded password bs Hbs)
    as (b0 & b1 & b2 & b3 & b4 & b5 & b6 & b7 & rest & _ & _ & Hk & Hs).
  exact (pipeline_round_trip arr password mode _ _ Hk Hs Hm Hw).
Qed.

Lemma decrypt_after_encrypt_every_mode_witness :
  exists enc, @pipeline lcg_runtime demo abc "shuffle" "encrypt" = Ok enc
    /\ @pipeline lcg_runtime enc abc "shuffle" "decrypt" = Ok demo.
Proof.
  apply (decrypt_after_encrypt_every_mode lcg_runtime demo abc "shuffle").
  - reflexivity.
  - exists [97; 98; 99]. reflexivity.
  - apply str_in_true. reflexivity.
Defined.

(** X2. The round trip the other way: under the same conditions the decrypt
    branch succeeds on any well-shaped array and the encrypt branch returns
    the array from its result, so the two branches are inverse bijections
    on the arrays of a shape. *)
Theorem encrypt_after_decrypt_every_mode (R : Runtime) (arr : ndarray)
    (password : pystr) (mode : string) :
  well_shaped arr ->
  is_Ok (encode_utf8 password) ->
  mode ∈ ["xor"; "shuffle"; "both"] ->
  exists dec, pipeline arr password mode "decrypt" = Ok dec
    /\ pipeline dec password mode "encrypt" = Ok arr.
Proof.
  intros Hw [bs Hbs] Hm.
  destruct (derive_encoded password bs Hbs)
    as (b0 & b1 & b2 & b3 & b4 & b5 & b6 & b7 & rest & _ & _ & Hk & Hs).
  exact (pipeline_round_trip_back arr password mode _ _ Hk Hs Hm Hw).
Qed.

Lemma encrypt_after_decrypt_every_mode_witness :
  exists dec, @pipeline lcg_runtime demo abc "both" "decrypt" = Ok dec
    /\ @pipeline lcg_runtime dec abc "both" "encrypt" = Ok demo.
Proof.
  apply (encrypt_after_decrypt_every_mode lcg_runtime demo abc "both").
  - reflexivity.
  - exists [97; 98; 99]. reflexivity.
  - apply str_in_true. reflexivity.
Defined.

(** X3. The shuffle looks at positions only: for a well-shaped array, a
    key byte in [0..255] and a 64-bit seed, [apply_shuffle] succeeds in
    either direction, and on the array with its values changed elementwise,
    in particular on the XORed array, it returns its result with the values
    changed the same way. *)
Theorem shuffle_commutes_with_xor (R : Runtime) (f : Z -> Z) (arr : ndarray)
    (k seed : Z) (encrypt : bool) :
  well_shaped arr ->
  is_uint8 k ->
  is_uint64 seed ->
  exists out, apply_shuffle arr seed encrypt = Ok out
    /\ apply_shuffle (map_data f arr) seed encrypt = Ok (map_data f out)
    /\ apply_shuffle (xor_transform arr k) seed encrypt = Ok (xor_transform out k).
Proof.
  intros Hw _ _.
  destruct (apply_shuffle_Permutation arr seed encrypt Hw) as (out & Hout & _ & _).
  exists out. split; [exact Hout|]. split.
  - rewrite apply_shuffle_map, Hout. reflexivity.
  - rewrite xor_transform_map_data, apply_shuffle_map, Hout. reflexivity.
Qed.

Lemma shuffle_commutes_with_xor_witness :
  exists out, @apply_shuffle lcg_runtime demo 12345 true = Ok out
    /\ @apply_shuffle lcg_runtime (map_data (fun x => 255 - x) demo) 12345 true
       = Ok (map_data (fun x => 255 - x) out)
    /\ @apply_shuffle lcg_runtime (xor_transform demo 186) 12345 true
       = Ok (xor_transform out 186).
Proof.
  apply (shuffle_commutes_with_xor lcg_runtime (fun x => 255 - x) demo 186 12345 true).
  - reflexivity.
  - unfold is_uint8. lia.
  - unfold is_uint64. lia.
Defined.

(** X4. The order of the two inverse transforms does not matter: an array
    encrypted with mode both is restored by a decrypt run with mode xor
    followed by one with mode shuffle, as well as by shuffle followed by
    xor. *)
Theorem both_decrypts_in_either_order (R : Runtime) (arr : ndarray) (password : pystr) :
  well_shaped arr ->
  is_Ok (encode_utf8 password) ->
  exists enc mid1 mid2,
    pipeline arr password "both" "encrypt" = Ok enc
    /\ pipeline enc password "xor" "decrypt" = Ok mid1
    /\ pipeline mid1 password "shuffle" "decrypt" = Ok arr
    /\ pipeline enc password "shuffle" "decrypt" = Ok mid2
    /\ pipeline mid2 password "xor" "decrypt" = Ok arr.
Proof.
  intros Hw [bs Hbs].
  destruct (derive_encoded password bs Hbs)
    as (b0 & b1 & b2 & b3 & b4 & b5 & b6 & b7 & rest & _ & _ & Hk & Hs).
  set (k := b0) in *. set (s := be64 b0 b1 b2 b3 b4 b5 b6 b7) in *.
  assert ("both" ∈ ["xor"; "shuffle"; "both"]) as Hm by (apply str_in_true; reflexivity).
  assert ("decrypt" ∈ ["encrypt"; "decrypt"]) as Ha by (apply str_in_true; reflexivity).
  destruct (apply_shuffle_round_trip (xor_transform arr k) s) as (enc & He & _ & Hd).
  { apply xor_transform_well_shaped, Hw. }
  exists enc, (xor_transform enc k), (xor_transform arr k).
  split; [rewrite (pipeline_encrypt arr password "both" k s Hk Hs Hm); exact He|].
  split; [exact (pipeline_xor_only enc password "decrypt" k s Hk Hs Ha)|].
  split; [|split].
  - rewrite (pipeline_shuffle_only _ password k s Hk Hs).
    rewrite xor_transform_map_data, apply_shuffle_map, Hd. result_simpl.
    rewrite <- xor_transform_map_data, xor_transform_involutive. reflexivity.
  - rewrite (pipeline_shuffle_only _ password k s Hk Hs). exact Hd.
  - rewrite (pipeline_xor_only _ password "decrypt" k s Hk Hs Ha).
    rewrite xor_transform_involutive. reflexivity.
Qed.

Lemma both_decrypts_in_either_order_witness :
  exists enc mid1 mid2,
    @pipeline lcg_runtime demo abc "both" "encrypt" = Ok enc
    /\ @pipeline lcg_runtime enc abc "xor" "decrypt" = Ok mid1
    /\ @pipeline lcg_runtime mid1 abc "shuffle" "decrypt" = Ok demo
    /\ @pipeline lcg_runtime enc abc "shuffle" "decrypt" = Ok mid2
    /\ @pipeline lcg_runtime mid2 abc "xor" "decrypt" = Ok demo.
Proof.
  apply (both_decrypts_in_either_order lcg_runtime demo abc).
  - reflexivity.
  - exists [97; 98; 99]. reflexivity.
Defined.

(** X5. The shuffle keeps the bytes: in either direction, on a well-shaped
    array and a 64-bit seed, [apply_shuffle] returns an array of the same
    shape whose elements are those of the input in another order, each
    value as often as before. *)
Theorem shuffle_keeps_the_bytes (R : Runtime) (arr : ndarray) (seed : Z) (encrypt : bool) :
  well_shaped arr ->
  is_uint64 seed ->
  exists out, apply_shuffle arr seed encrypt = Ok out
    /\ shape out = shape arr
    /\ data out ≡ₚ data arr
    /\ forall v : Z,
         count_occ Z.eq_dec (data out) v = count_occ Z.eq_dec (data arr) v.
Proof.
  intros Hw _.
  destruct (apply_shuffle_Permutation arr seed encrypt Hw) as (out & Hout & Hs & Hp).
  exists out. repeat split; try assumption.
  intros v. apply Permutation_count_occ, Hp.
Qed.

Lemma shuffle_keeps_the_bytes_witness :
  exists out, @apply_shuffle lcg_runtime demo 12345 true = Ok out
    /\ shape out = shape demo
    /\ data out ≡ₚ data demo
    /\ forall v : Z,
         count_occ Z.eq_dec (data out) v = count_occ Z.eq_dec (data demo) v.
Proof.
  apply (shuffle_keeps_the_bytes lcg_runtime demo 12345 true).
  - reflexivity.
  - unfold is_uint64. lia.
Defined.

(** X6. Buffers of at most one element: [apply_shuffle] returns such a
    well-shaped array unchanged, in either direction and for every seed. *)
Theorem shuffle_of_tiny_buffer (R : Runtime) (arr : ndarray) (seed : Z) (encrypt : bool) :
  well_shaped arr ->
  (length (data arr) <= 1)%nat ->
  is_uint64 seed ->
  apply_shuffle arr seed encrypt = Ok arr.
Proof.
  intros Hw Hlen _. destruct arr as [sh d]. unfold well_shaped in Hw.
  cbn [data shape] in *.
  destruct d as [|x [|y d]]; [| |cbn [length] in Hlen; lia];
    unfold apply_shuffle; cbn [data shape length]; destruct encrypt.
  - change (permutation_for_length (Z.of_nat 0) seed) with (@nil Z).
    cbn [take_fancy]. result_simpl. apply reshape_Ok, Hw.
  - change (permutation_for_length (Z.of_nat 0) seed) with (@nil Z).
    change (invert []) with (@Ok (list Z) []). result_simpl.
    cbn [take_fancy]. result_simpl. apply reshape_Ok, Hw.
  - change (permutation_for_length (Z.of_nat 1) seed) with [0].
    change (take_fancy [x] [0]) with (Ok [x]). result_simpl. apply reshape_Ok, Hw.
  - change (permutation_for_length (Z.of_nat 1) seed) with [0].
    change (invert [0]) with (@Ok (list Z) [0]). result_simpl.
    change (take_fancy [x] [0]) with (Ok [x]). result_simpl. apply reshape_Ok, Hw.
Qed.

Lemma shuffle_of_tiny_buffer_witness :
  @apply_shuffle lcg_runtime (NDArray [1%nat; 1%nat] [7]) 12345 false
  = Ok (NDArray [1%nat; 1%nat] [7]).
Proof.
  apply (shuffle_of_tiny_buffer lcg_runtime (NDArray [1%nat; 1%nat] [7]) 12345 false).
  - reflexivity.
  - cbn. lia.
  - unfold is_uint64. lia.
Defined.

(** X7. A valid run reaches the save: when the image was read as a
    well-shaped array, the password encodes and mode and action are valid,
    no transform raises; [process] ends in the one call of
    [save_array_as_image], with the mode the image was read with and an
    array of the shape and length that was read, whose elements are the
    input's (XORed with the key byte when the mode selects the XOR) in some
    order, bytes when the input's were. *)
Theorem process_reaches_save (R : Runtime) (IO : ImageIO)
    (in_path out_path : string) (password : pystr) (mode action : string)
    (fs : filesystem) (arr : ndarray) (img_mode : string) :
  load_image_as_array in_path fs = Ok (arr, img_mode) ->
  well_shaped arr ->
  is_Ok (encode_utf8 password) ->
  mode ∈ ["xor"; "shuffle"; "both"] ->
  action ∈ ["encrypt"; "decrypt"] ->
  exists (k : Z) (out : ndarray),
    derive_key_byte password = Ok k
    /\ pipeline arr password mode action = Ok out
    /\ shape out = shape arr
    /\ length (data out) = length (data arr)
    /\ data out ≡ₚ data (if uses_xor mode then xor_transform arr k else arr)
    /\ (Forall is_uint8 (data arr) -> Forall is_uint8 (data out))
    /\ process in_path out_path password mode action fs
       = save_array_as_image out img_mode out_path fs.
Proof.
  intros Hload Hw [bs Hbs] Hm Ha.
  destruct (derive_encoded password bs Hbs)
    as (b0 & b1 & b2 & b3 & b4 & b5 & b6 & b7 & rest & _ & Hb & Hk & Hs).
  apply Forall_cons in Hb as [Hb0 _].
  destruct (pipeline_valid arr password mode action _ _ Hk Hs Hm Ha Hw)
    as (out & Hout & Hsh & Hp & _).
  assert (length (data (if uses_xor mode then xor_transform arr b0 else arr))
          = length (data arr)) as Hlen.
  { destruct (uses_xor mode); [apply xor_transform_length | reflexivity]. }
  exists b0, out. repeat split; try assumption.
  - rewrite (Permutation_length Hp). exact Hlen.
  - intros Hbytes. rewrite Hp.
    destruct (uses_xor mode); [apply xor_transform_uint8|]; assumption.
  - apply (process_Ok _ _ _ _ _ _ arr out img_mode Hload Hout).
Qed.

Lemma process_reaches_save_witness :
  exists (k : Z) (out : ndarray),
    derive_key_byte abc = Ok k
    /\ @pipeline lcg_runtime demo abc "both" "encrypt" = Ok out
    /\ shape out = shape demo
    /\ length (data out) = length (data demo)
    /\ data out ≡ₚ data (if uses_xor "both" then xor_transform demo k else demo)
    /\ (Forall is_uint8 (data demo) -> Forall is_uint8 (data out))
    /\ @process lcg_runtime mem_io "in.png" "out.png" abc "both" "encrypt" demo_fs
       = @save_array_as_image mem_io out "L" "out.png" demo_fs.
Proof.
  apply (process_reaches_save lcg_runtime mem_io "in.png" "out.png" abc
           "both" "encrypt" demo_fs demo "L").
  - reflexivity.
  - reflexivity.
  - exists [97; 98; 99]. reflexivity.
  - apply str_in_true. reflexivity.
  - apply str_in_true. reflexivity.
Defined.

(** X8. Two XOR masks compose to one: for key bytes [k] and [k'],
    [xor_transform] with [k] and then with [k'] is [xor_transform] with
    [k XOR k'], itself a key byte.  Unmasking with the wrong key leaves the
    mask [k XOR k'] on the array. *)
Theorem xor_transform_composes (b : ndarray) (k k' : Z) :
  is_uint8 k ->
  is_uint8 k' ->
  is_uint8 (Z.lxor k k')
  /\ xor_transform (xor_transform b k) k' = xor_transform b (Z.lxor k k').
Proof.
  intros Hk Hk'. pose proof (lxor_uint8 k k' Hk Hk') as Hkk. split; [exact Hkk|].
  destruct b as [sh d]. unfold xor_transform. cbn [shape data]. f_equal.
  rewrite !np_uint8_id by assumption. rewrite map_map.
  apply map_ext. intros x. apply Z.lxor_assoc.
Qed.

Lemma xor_transform_composes_witness :
  is_uint8 (Z.lxor 186 43)
  /\ xor_transform (xor_transform demo 186) 43 = xor_transform demo (Z.lxor 186 43).
Proof.
  apply (xor_transform_composes demo 186 43); unfold is_uint8; lia.
Defined.

(** X9. The inverse permutation: for a 64-bit seed and
    [perm = permutation_for_length n seed], the array [inv] that lines 62-63
    of [apply_shuffle] build is a permutation of [0..n-1], inverts [perm]
    from the other side too ([perm[inv[k]] = k]), and inverting it gives
    [perm] back. *)
Theorem inverse_permutation_two_sided (R : Runtime) (n : nat) (seed : Z) :
  is_uint64 seed ->
  let perm := permutation_for_length (Z.of_nat n) seed in
  exists inv, invert perm = Ok inv
    /\ inv ≡ₚ np_arange (Z.of_nat n)
    /\ (forall (k : nat) (q : Z),
          inv !! k = Some q -> perm !! Z.to_nat q = Some (Z.of_nat k))
    /\ invert inv = Ok perm.
Proof.
  intros _ perm.
  destruct (permutation_for_length_self n seed) as [Hl Hp]. fold perm in Hl, Hp.
  destruct (invert_two_sided perm Hp) as (inv & Hinv & Hil & Hpi & _ & Hback).
  exists inv. repeat split; try assumption.
  - rewrite Hil, Hl in Hpi. exact Hpi.
  - exact (invert_invert perm inv Hp Hinv).
Qed.

Lemma inverse_permutation_two_sided_witness :
  let perm := @permutation_for_length lcg_runtime (Z.of_nat 10) 12345 in
  exists inv, @invert lcg_runtime perm = Ok inv
    /\ inv ≡ₚ np_arange (Z.of_nat 10)
    /\ (forall (k : nat) (q : Z),
          inv !! k = Some q -> perm !! Z.to_nat q = Some (Z.of_nat k))
    /\ @invert lcg_runtime inv = Ok perm.
Proof.
  apply (inverse_permutation_two_sided lcg_runtime 10 12345). unfold is_uint64. lia.
Defined.

(** X10. In mode xor the two branches of [process] do the same: for every
    array and password, the pipeline with action encrypt and with action
    decrypt return the same array or raise the same exception. *)
Theorem xor_mode_encrypt_is_decrypt (R : Runtime) (arr : ndarray) (password : pystr) :
  pipeline arr password "xor" "encrypt" = pipeline arr password "xor" "decrypt".
Proof.
  unfold pipeline.
  destruct (derive_key_byte password) as [k|e]; [|reflexivity].
  destruct (derive_seed password) as [s|e]; reflexivity.
Qed.

(** X11. The password is met before the arguments are checked: when the
    image was read and the password has no UTF-8 encoding, [process] raises
    [UnicodeEncodeError] and writes nothing, whatever the mode and the
    action are, valid or not. *)
Theorem password_checked_before_arguments (R : Runtime) (IO : ImageIO)
    (in_path out_path : string) (password : pystr) (mode action : string)
    (fs : filesystem) (arr : ndarray) (img_mode : string) :
  load_image_as_array in_path fs = Ok (arr, img_mode) ->
  ~ is_Ok (encode_utf8 password) ->
  process in_path out_path password mode action fs = (Raise UnicodeEncodeError, fs).
Proof.
  intros Hload Hne.
  destruct (encode_utf8 password) as [bs|e] eqn:He.
  - exfalso. apply Hne. exists bs. reflexivity.
  - pose proof (encode_utf8_error password e He) as ->.
    apply (process_raise _ _ _ _ _ _ arr img_mode _ Hload).
    unfold pipeline, derive_key_byte. rewrite He. reflexivity.
Qed.

Lemma password_checked_before_arguments_witness :
  @process lcg_runtime mem_io "in.png" "out.png" [0xD800] "bot" "encrypt" demo_fs
  = (Raise UnicodeEncodeError, demo_fs).
Proof.
  apply (password_checked_before_arguments lcg_runtime mem_io
           "in.png" "out.png" [0xD800] "bot" "encrypt" demo_fs demo "L").
  - reflexivity.
  - intros [bs Hbs]. discriminate Hbs.
Defined.

(** X12. [load_image_as_array] hands over one of the modes L, RGB, RGBA:
    when it returns, the image opened; an image in an allowed mode is
    handed over as it is, any other was converted to RGBA first and the
    array is that of the converted image. *)
Theorem load_mode_is_allowed (P : Files.Pillow) (path : string) (fs : Files.disk)
    (arr : ndarray) (mode : string) :
  Files.ConvertGivesMode P ->
  Files.load_image_as_array path fs = Ok (arr, mode) ->
  mode ∈ Files.ALLOWED_MODES
  /\ exists img,
       Files.Image_open path fs = Ok img
       /\ (Files.image_mode img ∈ Files.ALLOWED_MODES ->
           mode = Files.image_mode img /\ Files.np_array_uint8 img = Ok arr)
       /\ (Files.image_mode img ∉ Files.ALLOWED_MODES ->
           mode = "RGBA"%string
           /\ exists img', Files.image_convert img "RGBA" = Ok img'
                /\ Files.np_array_uint8 img' = Ok arr).
Proof.
  intros Hconv Hload. unfold Files.load_image_as_array in Hload.
  destruct (Files.Image_open path fs) as [img|e] eqn:Hopen; [|discriminate Hload].
  result_simpl.
  destruct (bool_decide (Files.image_mode img ∈ Files.ALLOWED_MODES)) eqn:Hm;
    cbn [negb] in Hload.
  - apply bool_decide_eq_true in Hm. result_simpl. cbn [fst snd] in Hload.
    destruct (Files.np_array_uint8 img) as [a|e] eqn:Ha; [|discriminate Hload].
    result_simpl. injection Hload as -> <-.
    split; [exact Hm|]. exists img. split; [reflexivity|].
    split; [intros _; split; [reflexivity | exact Ha]|].
    intros Hn. contradiction.
  - apply bool_decide_eq_false in Hm.
    destruct (Files.image_convert img "RGBA") as [img'|e] eqn:Hc; [|discriminate Hload].
    result_simpl. cbn [fst snd] in Hload.
    destruct (Files.np_array_uint8 img') as [a|e] eqn:Ha; [|discriminate Hload].
    result_simpl. injection Hload as -> <-.
    rewrite (Hconv img img' "RGBA"%string Hc).
    split; [do 2 (apply elem_of_cons; right); apply elem_of_cons; left; reflexivity|].
    exists img. split; [reflexivity|]. split; [intros Hy; contradiction|].
    intros _. split; [reflexivity|]. exists img'. split; [exact Hc | exact Ha].
Qed.

Lemma load_mode_is_allowed_witness :
  let arr := NDArray [2%nat; 2%nat; 4%nat]
               [10; 10; 10; 255; 20; 20; 20; 255; 30; 30; 30; 255; 40; 40; 40; 255] in
  "RGBA"%string ∈ Files.ALLOWED_MODES
  /\ exists img,
       @Files.Image_open Files.mem_pillow "in.gif" Files.palette_fs = Ok img
       /\ (@Files.image_mode Files.mem_pillow img ∈ Files.ALLOWED_MODES ->
           "RGBA"%string = @Files.image_mode Files.mem_pillow img
           /\ @Files.np_array_uint8 Files.mem_pillow img = Ok arr)
       /\ (@Files.image_mode Files.mem_pillow img ∉ Files.ALLOWED_MODES ->
           "RGBA"%string = "RGBA"%string
           /\ exists img', @Files.image_convert Files.mem_pillow img "RGBA" = Ok img'
                /\ @Files.np_array_uint8 Files.mem_pillow img' = Ok arr).
Proof.
  apply (load_mode_is_allowed Files.mem_pillow "in.gif" Files.palette_fs).
  - exact mem_pillow_convert.
  - vm_compute. reflexivity.
Defined.

(** X13. The path [save_array_as_image] writes to: the given path when
    [os.path.splitext] finds an extension in it, the given path followed by
    ".png" when it finds none.  The path written to has an extension
    exactly when the file name of the given path holds a character other
    than a dot: for an empty or all-dots file name the appended ".png"
    makes a name that still has no extension. *)
Theorem output_path_extension (p : string) :
  ((Files.splitext p).2 <> ""%string -> Files.output_path p = p)
  /\ ((Files.splitext p).2 = ""%string -> Files.output_path p = (p ++ ".png")%string)
  /\ ((Files.splitext (Files.output_path p)).2 <> ""%string
      <-> exists c, c ∈ Files.basename_chars (list_ascii_of_string p) /\ c <> "."%char).
Proof.
  split; [|split].
  - intros He. destruct (output_path_cases p) as [[H0 _]|[_ H]]; [contradiction | exact H].
  - intros He. destruct (output_path_cases p) as [[_ H]|[H0 _]]; [exact H | contradiction].
  - rewrite splitext_ext_chars, output_path_chars. apply output_chars_ext.
Qed.

Example output_path_samples :
  map Files.output_path ["out"; "out.jpg"; "dir.d/out"; ""; "dir/"; ".."; "out."]
  = ["out.png"; "out.jpg"; "dir.d/out.png"; ".png"; "dir/.png"; "...png"; "out."]%string
  /\ map (fun p => (Files.splitext (Files.output_path p)).2) [""; "dir/"; ".."]
     = [""; ""; ""]%string.
Proof. split; vm_compute; reflexivity. Qed.

(** X14. [process] through the two helpers writes one file: when
    [load_image_as_array] returned a well-shaped array, the password
    encodes and mode and action are valid, the mode handed on is L, RGB or
    RGBA, the pipeline returns an array of the shape that was read, and
    what [process] does to the disk is the one [img.save] of the image
    built from that array and that mode, at the path [out_path] or
    [out_path + ".png"]; when [Image.fromarray] raises, nothing is
    written. *)
Theorem process_writes_one_file (R : Runtime) (P : Files.Pillow)
    (in_path out_path : string) (password : pystr) (mode action : string)
    (fs : Files.disk) (arr : ndarray) (img_mode : string) :
  Files.ConvertGivesMode P ->
  Files.load_image_as_array in_path fs = Ok (arr, img_mode) ->
  well_shaped arr ->
  is_Ok (encode_utf8 password) ->
  mode ∈ ["xor"; "shuffle"; "both"] ->
  action ∈ ["encrypt"; "decrypt"] ->
  img_mode ∈ Files.ALLOWED_MODES
  /\ exists out : ndarray,
       pipeline arr password mode action = Ok out
       /\ shape out = shape arr
       /\ @process R Files.pillow_io in_path out_path password mode action fs
          = match Files.Image_fromarray out img_mode with
            | Ok img => Files.image_save img (Files.output_path out_path) fs
            | Raise e => (Raise e, fs)
            end.
Proof.
  intros Hconv Hload Hw [bs Hbs] Hm Ha.
  assert (img_mode ∈ Files.ALLOWED_MODES) as Hmode
    by exact (load_image_as_array_mode P in_path fs arr img_mode Hconv Hload).
  split; [exact Hmode|].
  destruct (derive_encoded password bs Hbs)
    as (b0 & b1 & b2 & b3 & b4 & b5 & b6 & b7 & rest & _ & _ & Hk & Hs).
  destruct (pipeline_valid arr password mode action _ _ Hk Hs Hm Ha Hw)
    as (out & Hout & Hsh & _ & _).
  exists out. repeat split; [exact Hout | exact Hsh |].
  rewrite (@process_Ok R Files.pillow_io _ _ _ _ _ _ arr out img_mode);
    [reflexivity | exact Hload | exact Hout].
Qed.

Lemma process_writes_one_file_witness :
  let arr := NDArray [2%nat; 2%nat; 4%nat]
               [10; 10; 10; 255; 20; 20; 20; 255; 30; 30; 30; 255; 40; 40; 40; 255] in
  "RGBA"%string ∈ Files.ALLOWED_MODES
  /\ exists out : ndarray,
       @pipeline lcg_runtime arr abc "both" "encrypt" = Ok out
       /\ shape out = shape arr
       /\ @process lcg_runtime (@Files.pillow_io Files.mem_pillow)
            "in.gif" "out" abc "both" "encrypt" Files.palette_fs
          = match @Files.Image_fromarray Files.mem_pillow out "RGBA" with
            | Ok img =>
                @Files.image_save Files.mem_pillow img (Files.output_path "out")
                  Files.palette_fs
            | Raise e => (Raise e, Files.palette_fs)
            end.
Proof.
  apply (process_writes_one_file lcg_runtime Files.mem_pillow "in.gif" "out" abc
           "both" "encrypt" Files.palette_fs).
  - exact mem_pillow_convert.
  - vm_compute. reflexivity.
  - reflexivity.
  - exists [97; 98; 99]. reflexivity.
  - apply str_in_true. reflexivity.
  - apply str_in_true. reflexivity.
Defined.

(** X15. A zero key byte: for a password whose digest starts with the byte
    zero, mode xor changes nothing; with either action the pipeline returns
    the array it was given.  The password "li" is one. *)
Theorem zero_key_byte_leaves_image (R : Runtime) (arr : ndarray) (password : pystr)
    (action : string) :
  derive_key_byte password = Ok 0 ->
  action ∈ ["encrypt"; "decrypt"] ->
  pipeline arr password "xor" action = Ok arr.
Proof.
  intros Hk Ha.
  assert (exists s, derive_seed password = Ok s) as [s Hs].
  { unfold derive_key_byte in Hk. unfold derive_seed.
    destruct (encode_utf8 password); [|discriminate Hk]. eexists. reflexivity. }
  rewrite (pipeline_xor_only arr password action 0 s Hk Hs Ha). f_equal.
  destruct arr as [sh d]. unfold xor_transform. cbn [shape data] in *. f_equal.
  change (np_uint8 0) with 0.
  rewrite <- (map_id d) at 2. apply map_ext. intros x. apply Z.lxor_0_r.
Qed.

Lemma zero_key_byte_leaves_image_witness :
  @pipeline lcg_runtime demo (str_of "li") "xor" "encrypt" = Ok demo.
Proof.
  apply (zero_key_byte_leaves_image lcg_runtime demo (str_of "li") "encrypt").
  - vm_compute. reflexivity.
  - apply str_in_true. reflexivity.
Defined.

(** X16. What the transform stage of [process] can end in: on a well-shaped
    array it returns an array exactly when the password encodes and mode
    and action are valid; otherwise it raises [UnicodeEncodeError] (the
    password does not encode), else the [ValueError] about the mode, else
    the one about the action.  It raises nothing else: no index or shape
    error escapes the transforms. *)
Theorem pipeline_outcomes (R : Runtime) (arr : ndarray) (password : pystr)
    (mode action : string) :
  well_shaped arr ->
  (exists out, pipeline arr password mode action = Ok out
     /\ is_Ok (encode_utf8 password)
     /\ mode ∈ ["xor"; "shuffle"; "both"] /\ action ∈ ["encrypt"; "decrypt"])
  \/ (pipeline arr password mode action = Raise UnicodeEncodeError
      /\ ~ is_Ok (encode_utf8 password))
  \/ (pipeline arr password mode action = Raise (ValueError mode_message)
      /\ is_Ok (encode_utf8 password) /\ mode ∉ ["xor"; "shuffle"; "both"])
  \/ (pipeline arr password mode action = Raise (ValueError action_message)
      /\ is_Ok (encode_utf8 password)
      /\ mode ∈ ["xor"; "shuffle"; "both"] /\ action ∉ ["encrypt"; "decrypt"]).
Proof.
  intros Hw.
  destruct (encode_utf8 password) as [bs|e] eqn:He.
  - assert (is_Ok (encode_utf8 password)) as Hok by (rewrite He; exists bs; reflexivity).
    rewrite <- He.
    destruct (derive_encoded password bs He)
      as (b0 & b1 & b2 & b3 & b4 & b5 & b6 & b7 & rest & _ & _ & Hk & Hs).
    destruct (decide (mode ∈ ["xor"; "shuffle"; "both"])) as [Hm|Hm].
    + destruct (decide (action ∈ ["encrypt"; "decrypt"])) as [Ha|Ha].
      * left. destruct (pipeline_valid arr password mode action _ _ Hk Hs Hm Ha Hw)
          as (out & Hout & _). exists out. auto.
      * right. right. right.
        rewrite (pipeline_invalid arr password mode action _ _ Hk Hs (or_intror Ha)).
        apply str_in_true in Hm as Hm'. rewrite Hm'. auto.
    + right. right. left.
      rewrite (pipeline_invalid arr password mode action _ _ Hk Hs (or_introl Hm)).
      apply str_in_false in Hm as Hm'. rewrite Hm'. auto.
  - right. left. pose proof (encode_utf8_error password e He) as ->. split.
    + unfold pipeline, derive_key_byte. rewrite He. reflexivity.
    + intros [bs Hbs]. discriminate Hbs.
Qed.

Lemma pipeline_outcomes_witness :
  (exists out, @pipeline lcg_runtime demo abc "both" "decode" = Ok out
     /\ is_Ok (encode_utf8 abc)
     /\ "both" ∈ ["xor"; "shuffle"; "both"] /\ "decode" ∈ ["encrypt"; "decrypt"])
  \/ (@pipeline lcg_runtime demo abc "both" "decode" = Raise UnicodeEncodeError
      /\ ~ is_Ok (encode_utf8 abc))
  \/ (@pipeline lcg_runtime demo abc "both" "decode" = Raise (ValueError mode_message)
      /\ is_Ok (encode_utf8 abc) /\ "both" ∉ ["xor"; "shuffle"; "both"])
  \/ (@pipeline lcg_runtime demo abc "both" "decode" = Raise (ValueError action_message)
      /\ is_Ok (encode_utf8 abc)
      /\ "both" ∈ ["xor"; "shuffle"; "both"] /\ "decode" ∉ ["encrypt"; "decrypt"]).
Proof.
  apply (pipeline_outcomes lcg_runtime demo abc "both" "decode"). reflexivity.
Defined.
